(** * bacula-resource-auto-creator: drive-index discovery, verified model

    A shallow embedding of [bacula-resource-auto-creator.py].  The script
    is a straight-line program over a handful of module-level variables
    which talks to the tape hardware through shell commands only.  It is
    modelled as a state-and-exit monad over

    - a [world] answering every shell command (an arbitrary oracle),
    - the module-level variables the script mutates
      ([drives_byid_nodes_lst], [lib_dict], [archive_device]),
    - the list of events the run has produced so far (commands with their
      results, settle delays) and the resource files written.

    Text processing ([str] methods and the regular expressions of the
    [re] module that the script uses) is modelled by executable functions
    on strings of characters with code points below 256, with Python's
    character classes on that range.

    [log] and the [debug] output only print to the console and append to
    the log file; they never influence a value or a branch of the script
    and are left out of the model, and so is the creation of the work
    directory.  A resource file is modelled by the texts written to it.
    Exit codes are integers, drive indices and counts natural numbers. *)

From Stdlib Require Import String Ascii List ZArith Lia Bool Arith DecimalString.
From Stdlib Require Import Permutation.
Import ListNotations.
Open Scope list_scope.
Open Scope nat_scope.
Open Scope string_scope.

Set Implicit Arguments.

(** ** Python [str] methods used by the script *)

Module PyStr.

Definition nl : ascii := "010"%char.

(** [str(n)] for a non-negative integer. *)
Definition str_of_nat (n : nat) : string :=
  NilZero.string_of_uint (Nat.to_uint n).

(** Python's notion of white space ([str.isspace], which [split] and
    [rstrip] go by) for the characters below 256: tab .. carriage
    return, the four separators 28 .. 31, space, next line (133) and
    the no-break space (160). *)
Definition is_space (a : ascii) : bool :=
  let n := nat_of_ascii a in
  (((9 <=? n) && (n <=? 13)) || ((28 <=? n) && (n <=? 32))
   || (n =? 133) || (n =? 160))%nat.

Definition is_digit (a : ascii) : bool :=
  let n := nat_of_ascii a in ((48 <=? n) && (n <=? 57))%nat.

Definition is_alpha (a : ascii) : bool :=
  let n := nat_of_ascii a in
  (((65 <=? n) && (n <=? 90)) || ((97 <=? n) && (n <=? 122)))%nat.

(** The characters from 128 to 255 that are alphanumeric for Python:
    the letters of Latin-1, the ordinal indicators, the micro sign, the
    superscript digits and the three fractions. *)
Definition is_alnum_latin1 (a : ascii) : bool :=
  let n := nat_of_ascii a in
  ((n =? 170) || ((178 <=? n) && (n <=? 179)) || (n =? 181)
   || ((185 <=? n) && (n <=? 186)) || ((188 <=? n) && (n <=? 190))
   || ((192 <=? n) && (n <=? 214)) || ((216 <=? n) && (n <=? 246))
   || (248 <=? n))%nat.

(** [\w] on [str] for the characters below 256: the alphanumeric ones
    and the underscore. *)
Definition is_word (a : ascii) : bool :=
  is_alpha a || is_digit a || (nat_of_ascii a =? 95)%nat
  || is_alnum_latin1 a.

Fixpoint rev_str (acc s : string) : string :=
  match s with
  | EmptyString => acc
  | String c s' => rev_str (String c acc) s'
  end.

Fixpoint drop_while (p : ascii -> bool) (s : string) : string :=
  match s with
  | EmptyString => EmptyString
  | String c s' => if p c then drop_while p s' else s
  end.

(** [s.rstrip('\n')] and [s.rstrip()]. *)
Definition rstrip_by (p : ascii -> bool) (s : string) : string :=
  rev_str "" (drop_while p (rev_str "" s)).

Definition rstrip_nl : string -> string := rstrip_by (Ascii.eqb nl).
Definition rstrip : string -> string := rstrip_by is_space.

(** [s.split('\n')]: never the empty list. *)
Fixpoint split_on (sep : ascii) (cur : string) (s : string) : list string :=
  match s with
  | EmptyString => [rev_str "" cur]
  | String c s' =>
      if Ascii.eqb c sep then rev_str "" cur :: split_on sep "" s'
      else split_on sep (String c cur) s'
  end.

Definition split_nl (s : string) : list string := split_on nl "" s.

(** [s.split()]: the maximal runs of non-space characters. *)
Fixpoint split_ws_aux (cur : string) (s : string) : list string :=
  match s with
  | EmptyString =>
      match cur with EmptyString => [] | _ => [rev_str "" cur] end
  | String c s' =>
      if is_space c then
        match cur with
        | EmptyString => split_ws_aux "" s'
        | _ => rev_str "" cur :: split_ws_aux "" s'
        end
      else split_ws_aux (String c cur) s'
  end.

Definition split (s : string) : list string := split_ws_aux "" s.

(** [sep.join(l)] *)
Definition join (sep : string) (l : list string) : string :=
  String.concat sep l.

(** [s.replace(old, new)] for a non-empty [old] (every call site of the
    script passes a non-empty constant): all non-overlapping
    occurrences, leftmost first.  [skip] counts the characters of the
    occurrence just replaced that are still to be passed over. *)
Fixpoint replace_aux (old new : string) (skip : nat) (s : string) : string :=
  match s with
  | EmptyString => EmptyString
  | String c s' =>
      match skip with
      | S k => replace_aux old new k s'
      | O =>
          if String.prefix old s
          then new ++ replace_aux old new (String.length old - 1) s'
          else String c (replace_aux old new 0 s')
      end
  end.

Definition replace (old new s : string) : string := replace_aux old new 0 s.

(** [x in l] for a list of strings. *)
Definition mem (x : string) (l : list string) : bool :=
  existsb (String.eqb x) l.

(** [l.remove(x)]: drops the first element equal to [x]. *)
Fixpoint remove (x : string) (l : list string) : list string :=
  match l with
  | [] => []
  | y :: l' => if String.eqb x y then l' else y :: remove x l'
  end.

End PyStr.

(** ** The fragment of Python's [re] the script relies on

    Every pattern of the script is a sequence of single-character
    classes, each taken once, optionally ([?]), greedily repeated ([*],
    [+]) or lazily repeated ([+?]), with capture groups around
    sub-sequences and an optional leading [^].  Matching is Python's
    backtracking search: greedy items try the longest repetition first,
    lazy ones the shortest. *)

Module Re.

Inductive cset : Type :=
| Lit (a : ascii)     (* a literal character *)
| Dot                 (* [.] without DOTALL: anything but a newline *)
| DotAll              (* [.] under re.DOTALL *)
| Digit               (* [\d] and [[0-9]] *)
| Word.               (* [\w] *)

Definition cmem (c : cset) (a : ascii) : bool :=
  match c with
  | Lit b => Ascii.eqb a b
  | Dot => negb (Ascii.eqb a PyStr.nl)
  | DotAll => true
  | Digit => PyStr.is_digit a
  | Word => PyStr.is_word a
  end.

Inductive item : Type :=
| One (c : cset)
| Opt (c : cset)
| Star (c : cset)
| StarLazy (c : cset)
| GOpen
| GClose.

Record pattern : Type := { anchored : bool; items : list item }.

Definition lits (s : string) : list item :=
  map (fun a => One (Lit a)) (list_ascii_of_string s).

Definition plus (c : cset) : list item := [One c; Star c].
Definition plus_lazy (c : cset) : list item := [One c; StarLazy c].
Definition group (p : list item) : list item := GOpen :: p ++ [GClose].

(** A match is the number of characters consumed together with the
    texts of the groups, in the order in which they were closed. *)
Definition found : Type := (nat * list string)%type.

Fixpoint rmatch (p : list item)
  : string -> nat -> list (nat * string) -> list string -> option found :=
  match p with
  | [] => fun _ pos _ caps => Some (pos, caps)
  | One c :: p' =>
      fun s pos op caps =>
        match s with
        | String a s' => if cmem c a then rmatch p' s' (S pos) op caps else None
        | EmptyString => None
        end
  | Opt c :: p' =>
      fun s pos op caps =>
        match s with
        | String a s' =>
            if cmem c a then
              match rmatch p' s' (S pos) op caps with
              | Some r => Some r
              | None => rmatch p' s pos op caps
              end
            else rmatch p' s pos op caps
        | EmptyString => rmatch p' s pos op caps
        end
  | Star c :: p' =>
      fix star (s : string) (pos : nat) op caps {struct s} : option found :=
        match s with
        | String a s' =>
            if cmem c a then
              match star s' (S pos) op caps with
              | Some r => Some r
              | None => rmatch p' s pos op caps
              end
            else rmatch p' s pos op caps
        | EmptyString => rmatch p' s pos op caps
        end
  | StarLazy c :: p' =>
      fix lazy (s : string) (pos : nat) op caps {struct s} : option found :=
        match rmatch p' s pos op caps with
        | Some r => Some r
        | None =>
            match s with
            | String a s' => if cmem c a then lazy s' (S pos) op caps else None
            | EmptyString => None
            end
        end
  | GOpen :: p' =>
      fun s pos op caps => rmatch p' s pos ((pos, s) :: op) caps
  | GClose :: p' =>
      fun s pos op caps =>
        match op with
        | (start, s0) :: op' =>
            rmatch p' s pos op' (caps ++ [String.substring 0 (pos - start) s0])
        | [] => rmatch p' s pos op caps
        end
  end.

(** The match starting exactly at the head of [s], if there is one. *)
Definition match_here (p : pattern) (at_start : bool) (s : string) : option found :=
  if anchored p && negb at_start then None else rmatch (items p) s 0 [] [].

(** [re.search(p, s)]: the text of the leftmost match ([group(0)]). *)
Fixpoint search_from (p : pattern) (at_start : bool) (s : string) : option string :=
  match match_here p at_start s with
  | Some (n, _) => Some (String.substring 0 n s)
  | None =>
      match s with
      | String _ s' => search_from p false s'
      | EmptyString => None
      end
  end.

Definition search (p : pattern) (s : string) : option string :=
  search_from p true s.

(** [re.findall(p, s)] for a pattern without groups: the texts of the
    non-overlapping matches, leftmost first.  [skip] counts the
    characters of the previous match still to be passed over. *)
Fixpoint findall_aux (p : pattern) (at_start : bool) (skip : nat) (s : string)
  : list string :=
  match s with
  | EmptyString =>
      match skip, match_here p at_start s with
      | O, Some _ => [EmptyString]
      | _, _ => []
      end
  | String c s' =>
      match skip with
      | S k => findall_aux p false k s'
      | O =>
          match match_here p at_start s with
          | Some (n, _) =>
              String.substring 0 n s :: findall_aux p false (n - 1) s'
          | None => findall_aux p false 0 s'
          end
      end
  end.

Definition findall (p : pattern) (s : string) : list string :=
  findall_aux p true 0 s.

(** Replacement templates: literal text and back-references [\\k]. *)
Inductive tpart : Type :=
| TLit (s : string)
| TGroup (k : nat).

Definition expand (tmpl : list tpart) (groups : list string) : string :=
  String.concat ""
    (map (fun t => match t with
                   | TLit s => s
                   | TGroup k => nth (k - 1) groups ""
                   end) tmpl).

(** [re.sub(p, tmpl, s)] *)
Fixpoint sub_aux (p : pattern) (tmpl : list tpart)
         (at_start : bool) (skip : nat) (s : string) : string :=
  match s with
  | EmptyString =>
      match skip, match_here p at_start s with
      | O, Some (_, g) => expand tmpl g
      | _, _ => EmptyString
      end
  | String c s' =>
      match skip with
      | S k => sub_aux p tmpl false k s'
      | O =>
          match match_here p at_start s with
          | Some (O, g) => expand tmpl g ++ String c (sub_aux p tmpl false 0 s')
          | Some (S k, g) => expand tmpl g ++ sub_aux p tmpl false k s'
          | None => String c (sub_aux p tmpl false 0 s')
          end
      end
  end.

Definition sub (p : pattern) (tmpl : list tpart) (s : string) : string :=
  sub_aux p tmpl true 0 s.

End Re.

Import PyStr Re.


(** ** Shell commands, results and events *)

(** The double quote, for the shell and resource texts that contain it. *)
Definition dq : string := String (ascii_of_nat 34) "".
Definition nls : string := String PyStr.nl "".

(** What [subprocess.run] hands back. *)
Record cmd_result : Type :=
  { returncode : Z; stdout : string; stderr : string }.

(** Every command line the script builds, by the place that builds it. *)
Inductive command : Type :=
| Uname
| MtVersionMtSt
| MtVersionCpio
| LsscsiLibs
| LsscsiAll
| LsById
| LsscsiDrives
| MtOffline (drive : string)
| MtxStatus (lib : string)
| MtxFullSlots (lib : string)
| MtxLoad (lib slot : string) (index : nat)
| MtxUnload (lib slot : string) (index : nat)
| MtStatus (drive : string).

Definition by_id : string := "/dev/tape/by-id/".

(** The text handed to the shell. *)
Definition shell_text (c : command) : string :=
  match c with
  | Uname => "uname"
  | MtVersionMtSt => "mt --version | grep " ++ dq ++ "mt-st" ++ dq
  | MtVersionCpio => "mt --version | grep " ++ dq ++ "GNU cpio" ++ dq
  | LsscsiLibs =>
      "lsscsi -g | grep mediumx | grep -o " ++ dq ++ "sg[0-9]*" ++ dq ++ " | sort"
  | LsscsiAll => "lsscsi -g"
  | LsById => "ls -la /dev/tape/by-id"
  | LsscsiDrives =>
      "lsscsi -g | grep tape | grep -o " ++ dq ++ "st[0-9]*" ++ dq ++ " | sort"
  | MtOffline d => "mt -f " ++ by_id ++ d ++ " offline"
  | MtxStatus lib => "mtx -f " ++ by_id ++ lib ++ " status"
  | MtxFullSlots lib =>
      "mtx -f " ++ by_id ++ lib ++ " status | grep " ++ dq
        ++ "Storage Element [0-9]\{1,3\}:Full" ++ dq
        ++ " | grep -v " ++ dq ++ "CLN" ++ dq
  | MtxLoad lib slot i =>
      "mtx -f " ++ by_id ++ lib ++ " load " ++ slot ++ " " ++ str_of_nat i
  | MtxUnload lib slot i =>
      "mtx -f " ++ by_id ++ lib ++ " unload " ++ slot ++ " " ++ str_of_nat i
  | MtStatus d => "mt -f " ++ by_id ++ d ++ " status"
  end.

Arguments shell_text : simpl never.

Inductive event : Type :=
| Ran (c : command) (r : cmd_result)
| Slept (secs : nat).

(** The exceptions the script can die of. *)
Inductive exn : Type :=
| IndexError
| ValueError
| NameError (name : string)
| ReError.

(** How a piece of the script ends: normally, through [sys.exit], or by
    an uncaught exception. *)
Inductive outcome (A : Type) : Type :=
| Ok (a : A)
| Exit (code : Z)
| Raise (e : exn).

Arguments Ok {A} a.
Arguments Exit {A} code.
Arguments Raise {A} e.

(** ** The patterns of the script *)

Definition unanchored (p : list item) : pattern :=
  {| anchored := false; items := p |}.

(** ['Data Transfer Element'] *)
Definition drive_element_re : pattern :=
  unanchored (lits "Data Transfer Element").

(** ['Data Transfer Element ' + str(index) + ':Full.*'] *)
Definition drive_full_re (index : nat) : pattern :=
  unanchored (lits ("Data Transfer Element " ++ str_of_nat index ++ ":Full")
              ++ [Star Dot])%list.

(** ['^Data Transfer Element.*Element (\d+) Loaded.*= (\w+)'] *)
Definition slot_and_vol_re : pattern :=
  {| anchored := true;
     items := (lits "Data Transfer Element" ++ [Star Dot] ++ lits "Element "
               ++ group (plus Digit) ++ lits " Loaded" ++ [Star Dot]
               ++ lits "= " ++ group (plus Word))%list |}.

(** ['Storage Element [0-9].?:Full.* '] *)
Definition full_slots_re : pattern :=
  unanchored (lits "Storage Element " ++ [One Digit; Opt Dot] ++ lits ":Full"
              ++ [Star Dot] ++ lits " ")%list.

(** ['Storage Element ([0-9].?):Full.*'] *)
Definition slot_number_re : pattern :=
  unanchored (lits "Storage Element " ++ group [One Digit; Opt Dot]
              ++ lits ":Full" ++ [Star Dot])%list.

(** The volume tag pattern: [.*], then [:VolumeTag=], then a group
    holding [.*], then [.*] once more. *)
Definition volume_tag_re : pattern :=
  unanchored ([Star Dot] ++ lits ":VolumeTag=" ++ group [Star Dot]
              ++ [Star Dot])%list.

(** The ready marker is handed to [re.search] as a pattern under
    [re.DOTALL].  The five markers of [get_ready_str] contain no
    metacharacter but the full stop, which then stands for any
    character. *)
Definition ready_re (marker : string) : pattern :=
  unanchored
    (map (fun a => if Ascii.eqb a "."%char then One DotAll else One (Lit a))
         (list_ascii_of_string marker)).

(** ['.* (scsi-.+?) ->.*/' + sg + '.*'] under [re.DOTALL] *)
Definition lib_byid_re (lib_sg : string) : pattern :=
  unanchored ([Star DotAll] ++ lits " " ++ group (lits "scsi-" ++ plus_lazy DotAll)
              ++ lits " ->" ++ [Star DotAll] ++ lits "/" ++ lits lib_sg
              ++ [Star DotAll])%list.

(** ['.* (scsi-.+?) ->.*/n' + st + '\n.*'] under [re.DOTALL] *)
Definition drive_byid_re (drive_st : string) : pattern :=
  unanchored ([Star DotAll] ++ lits " " ++ group (lits "scsi-" ++ plus_lazy DotAll)
              ++ lits " ->" ++ [Star DotAll] ++ lits "/n" ++ lits drive_st
              ++ lits nls ++ [Star DotAll])%list.

(** A node name made of letters and digits only stands for itself when
    spliced into a pattern; [grep -o "sg[0-9]*"] prints nothing else. *)
Definition plain_node (s : string) : bool :=
  forallb (fun a => is_alpha a || is_digit a) (list_ascii_of_string s).

(** ** Settings and surroundings of a run *)

(** The variables at the head of the script that the operator may edit
    ([debug] only switches logging on and has no counterpart here). *)
Record settings : Type :=
  { sleep_secs : nat;
    offline : bool;
    libs_to_skip : list string }.

(** The values in the source. *)
Definition default_settings : settings :=
  {| sleep_secs := 10;
     offline := false;
     libs_to_skip := ["scsi-SSTK_L700_XYZZY_A"; "otherLibToSkip"] |}.

(** [lib_dict]: library, then its [(drive_byid_node, drive_index)] pairs
    in the order in which they were found.  A Python [dict] keeps the
    order in which its keys were inserted, so an association list. *)
Definition entry : Type := (string * nat)%type.
Definition dict : Type := list (string * list entry).

Fixpoint dict_get (d : dict) (k : string) : option (list entry) :=
  match d with
  | [] => None
  | (k', v) :: d' => if String.eqb k k' then Some v else dict_get d' k
  end.

(** [if lib in lib_dict: lib_dict[lib].append(e) else: lib_dict[lib] = [e]] *)
Fixpoint dict_append (d : dict) (k : string) (e : entry) : dict :=
  match d with
  | [] => [(k, [e])]
  | (k', v) :: d' =>
      if String.eqb k k' then (k', (v ++ [e])%list) :: d'
      else (k', v) :: dict_append d' k e
  end.

(** [l[i]] with Python's negative indices. *)
Definition py_index {A : Type} (l : list A) (i : Z) : option A :=
  let n := Z.of_nat (length l) in
  if (0 <=? i)%Z && (i <? n)%Z then nth_error l (Z.to_nat i)
  else if (- n <=? i)%Z && (i <? 0)%Z then nth_error l (Z.to_nat (n + i))
  else None.

(** ** Sample hardware

    A world that plays back a list of answers, whatever it is asked, and
    the texts of a small installation: libraries behind [sg] nodes, two
    drives behind [st0] and [st1]. *)

Definition answer (code : Z) (out : string) : cmd_result :=
  {| returncode := code; stdout := out; stderr := "" |}.

Definition playback (w : list cmd_result) (_ : string)
  : cmd_result * list cmd_result :=
  match w with
  | r :: w' => (r, w')
  | [] => (answer 127 "", [])
  end.

Definition no_random (_ : nat) : nat := 0.
Definition no_python_re (_ _ : string) : option string := None.

(** Lines, each with its end of line. *)
Definition text (lines : list string) : string :=
  String.concat nls lines ++ nls.

Definition ls_line (name target : string) : string :=
  "lrwxrwxrwx 1 root root  9 Feb 13 10:00 " ++ name ++ " -> ../../" ++ target.

Definition ls_drives : list string :=
  [ "total 0";
    ls_line "scsi-DRVA" "st0"; ls_line "scsi-DRVA-nst" "nst0";
    ls_line "scsi-DRVB" "st1"; ls_line "scsi-DRVB-nst" "nst1" ].

(** One library, behind [sg3]. *)
Definition ls_one_library (lib : string) : string :=
  text (ls_drives ++ [ls_line lib "sg3"]).

(** Two libraries, behind [sg1] and [sg10]. *)
Definition ls_two_libraries : string :=
  text (ls_drives ++ [ls_line "scsi-LIB1" "sg1"; ls_line "scsi-LIB2" "sg10"]).

Definition status_lines_empty : list string :=
  [ "  Storage Changer /dev/tape/by-id/scsi-LIB1:2 Drives, 3 Slots ( 0 Import/Export )";
    "Data Transfer Element 0:Empty";
    "Data Transfer Element 1:Empty";
    "      Storage Element 1:Empty";
    "      Storage Element 2:Full :VolumeTag=E01002L4 ";
    "      Storage Element 3:Full :VolumeTag=E01003L4 " ].

Definition status_two_empty : string := text status_lines_empty.

Definition status_one_empty : string :=
  text [ "  Storage Changer /dev/tape/by-id/scsi-LIB2:1 Drives, 3 Slots ( 0 Import/Export )";
         "Data Transfer Element 0:Empty";
         "      Storage Element 1:Empty";
         "      Storage Element 2:Full :VolumeTag=E01002L4 ";
         "      Storage Element 3:Full :VolumeTag=E01003L4 " ].

Definition status_one_full : string :=
  text [ "  Storage Changer /dev/tape/by-id/scsi-SSTK_L700_XYZZY_A:1 Drives, 3 Slots ( 0 Import/Export )";
         "Data Transfer Element 0:Full (Storage Element 3 Loaded):VolumeTag = E01003L4 ";
         "      Storage Element 1:Empty";
         "      Storage Element 2:Full :VolumeTag=E01002L4 ";
         "      Storage Element 3:Empty" ].

(** A loaded drive whose tape has no bar code. *)
Definition status_no_volume_tag : string :=
  text [ "  Storage Changer /dev/tape/by-id/scsi-LIB1:1 Drives, 3 Slots ( 0 Import/Export )";
         "Data Transfer Element 0:Full (Storage Element 3 Loaded)";
         "      Storage Element 1:Empty";
         "      Storage Element 2:Full ";
         "      Storage Element 3:Empty" ].

Definition slots_two_three : string :=
  text [ "      Storage Element 2:Full :VolumeTag=E01002L4 ";
         "      Storage Element 3:Full :VolumeTag=E01003L4 " ].

Definition slots_three : string :=
  text [ "      Storage Element 3:Full :VolumeTag=E01003L4 " ].

Definition slots_beyond_99 : string :=
  text [ "      Storage Element 100:Full :VolumeTag=E01100L4 " ].

Definition mt_empty : string := text ["DR_OPEN IM_REP_EN"].
Definition mt_online : string := text ["BOT ONLINE IM_REP_EN"].

(** The answers up to the end of the inventory on a Debian system with
    [mt-st]. *)
Definition startup (libs_sg : list string) (ls : string) : list cmd_result :=
  [ answer 0 (text ["Linux"]); answer 0 (text ["mt-st v. 1.1"]);
    answer 0 (text libs_sg); answer 0 ""; answer 0 ls;
    answer 0 (text ["st0"; "st1"]) ].

(** A library with two drives; nothing becomes ready at index 0, the
    second drive becomes ready at index 1. *)
Definition world_index_zero_missing : list cmd_result :=
  (startup ["sg3"] (ls_one_library "scsi-LIB1")
   ++ [ answer 0 status_two_empty; answer 0 status_two_empty;
        answer 0 status_two_empty;
        answer 0 status_two_empty;
        answer 0 slots_two_three; answer 0 "";
        answer 0 mt_empty; answer 0 mt_empty;
        answer 0 slots_three; answer 0 "";
        answer 0 mt_empty; answer 0 mt_online; answer 0 "" ])%list.

(** Libraries behind [sg1] and [sg10], one drive in the second one. *)
Definition world_sg1_sg10 : list cmd_result :=
  (startup ["sg1"; "sg10"] ls_two_libraries
   ++ [ answer 0 status_one_empty; answer 0 status_one_empty;
        answer 0 status_one_empty; answer 0 status_one_empty;
        answer 0 status_one_empty;
        answer 0 slots_two_three; answer 0 ""; answer 0 mt_online; answer 0 "";
        answer 0 status_one_empty;
        answer 0 slots_two_three; answer 0 ""; answer 0 mt_online; answer 0 "" ])%list.

(** The library of the skip list in the source, a tape in its drive. *)
Definition world_skipped_loaded : list cmd_result :=
  (startup ["sg3"] (ls_one_library "scsi-SSTK_L700_XYZZY_A")
   ++ [ answer 0 status_one_full; answer 0 status_one_full; answer 0 "";
        answer 0 status_one_empty ])%list.

(** The listing of [/dev/tape/by-id] fails. *)
Definition world_ls_fails : list cmd_result :=
  [ answer 0 (text ["Linux"]); answer 0 (text ["mt-st v. 1.1"]);
    answer 0 (text ["sg3"]); answer 0 ""; answer 2 "" ].

(** [lsscsi] prints nothing, for the libraries as for the drives. *)
Definition world_nothing_listed : list cmd_result :=
  [ answer 0 ""; answer 0 ""; answer 0 ""; answer 0 "" ].

(** Two full slots found, a load that succeeds, and two drives that do
    not become ready. *)
Definition world_none_ready : list cmd_result :=
  [ answer 0 slots_two_three; answer 0 "";
    answer 0 mt_empty; answer 0 mt_empty ].

Section Script.

(** The hardware and operating system behind the shell: any type of
    states with any answer to any command line. *)
Variable world : Type.
Variable run_shell : world -> string -> cmd_result * world.

(** The numbers the random generator will produce, call by call. *)
Variable random_tape : nat -> nat.

(** [os.path.isfile('/etc/debian_version')] and [now()]. *)
Variable debian_version_file : bool.
Variable date_stamp : string.

(** Python's [re.sub(pattern, '\\1', text, flags = re.DOTALL)] for the
    patterns that splice in a node name with other characters than
    letters and digits, which may be a different pattern altogether or
    none at all ([None]: [re.error]). *)
Variable re_sub_python : string -> string -> option string.

Variable cfg : settings.

Record state : Type :=
  { hw : world;
    rand_calls : nat;
    events : list event;                  (* newest first *)
    drives_byid_nodes_lst : list string;
    lib_dict : dict;
    archive_device : option string;
    files : list (string * string) }.     (* writes, newest first *)

Definition initial (w : world) : state :=
  {| hw := w; rand_calls := 0; events := [];
     drives_byid_nodes_lst := []; lib_dict := [];
     archive_device := None; files := [] |}.

Definition M (A : Type) : Type := state -> outcome A * state.

Definition ret {A} (a : A) : M A := fun st => (Ok a, st).

Definition bind {A B} (m : M A) (f : A -> M B) : M B :=
  fun st =>
    match m st with
    | (Ok a, st') => f a st'
    | (Exit c, st') => (Exit c, st')
    | (Raise e, st') => (Raise e, st')
    end.

Definition sys_exit {A} (code : Z) : M A := fun st => (Exit code, st).
Definition raise {A} (e : exn) : M A := fun st => (Raise e, st).
Definition get : M state := fun st => (Ok st, st).

Notation "x <- m ;; k" := (bind m (fun x => k))
  (at level 61, m at next level, right associativity).
Notation "m ;;; k" := (bind m (fun _ => k))
  (at level 61, right associativity).

Fixpoint for_each {A} (l : list A) (body : A -> M unit) : M unit :=
  match l with
  | [] => ret tt
  | x :: l' => body x ;;; for_each l' body
  end.

(** [i = 0; while i < n: body(i); i += 1] *)
Definition while_below (n : nat) (body : nat -> M unit) : M unit :=
  for_each (seq 0 n) body.

(** *** The functions of the script *)

Definition get_shell_result (c : command) : M cmd_result :=
  fun st =>
    let (r, w) := run_shell (hw st) (shell_text c) in
    (Ok r, {| hw := w; rand_calls := rand_calls st;
              events := Ran c r :: events st;
              drives_byid_nodes_lst := drives_byid_nodes_lst st;
              lib_dict := lib_dict st;
              archive_device := archive_device st;
              files := files st |}).

Definition chk_cmd_result (r : cmd_result) : M unit :=
  if (returncode r =? 0)%Z then ret tt else sys_exit (returncode r).

Definition sleep (secs : nat) : M unit :=
  fun st =>
    (Ok tt, {| hw := hw st; rand_calls := rand_calls st;
               events := Slept secs :: events st;
               drives_byid_nodes_lst := drives_byid_nodes_lst st;
               lib_dict := lib_dict st;
               archive_device := archive_device st;
               files := files st |}).

(** [randint(a, b)]: some integer from [a] to [b], and [ValueError]
    when there is none. *)
Definition randint (a b : Z) : M Z :=
  fun st =>
    if (b <? a)%Z then (Raise ValueError, st)
    else
      (Ok (a + Z.of_nat (random_tape (rand_calls st)) mod (b - a + 1))%Z,
       {| hw := hw st; rand_calls := S (rand_calls st);
          events := events st;
          drives_byid_nodes_lst := drives_byid_nodes_lst st;
          lib_dict := lib_dict st;
          archive_device := archive_device st;
          files := files st |}).

Definition get_uname : M string :=
  result <- get_shell_result Uname ;;
  chk_cmd_result result ;;;
  ret (rstrip_nl (stdout result)).

(** The last branch calls [print_opt_errors], which the script does
    not define. *)
Definition get_ready_str (uname : string) : M string :=
  if String.eqb uname "Linux" then
    if debian_version_file then
      result <- get_shell_result MtVersionMtSt ;;
      if (returncode result =? 1)%Z then ret "drive status" else ret "ONLINE"
    else
      result <- get_shell_result MtVersionCpio ;;
      if (returncode result =? 0)%Z then ret "drive status" else ret "ONLINE"
  else if String.eqb uname "SunOS" then ret "No Additional Sense"
  else if String.eqb uname "FreeBSD" then ret "Current Driver State: at rest."
  else if String.eqb uname "OpenBSD" then ret "ds=3<Mounted>"
  else raise (NameError "print_opt_errors").

Definition lib_or_drv_status (c : command) : M cmd_result :=
  result <- get_shell_result c ;;
  chk_cmd_result result ;;;
  ret result.

(** The [(slot, volume)] in drive [index], and [('0', '0')] for an
    empty drive. *)
Definition loaded (lib : string) (index : nat) : M (string * string) :=
  result <- lib_or_drv_status (MtxStatus lib) ;;
  match Re.search (drive_full_re index) (stdout result) with
  | Some drive_loaded_line =>
      let slot_and_vol_loaded :=
        split (Re.sub slot_and_vol_re [TGroup 1; TLit " "; TGroup 2]
                      drive_loaded_line) in
      match slot_and_vol_loaded with
      | slot_loaded :: vol_loaded :: _ => ret (slot_loaded, vol_loaded)
      | _ => raise IndexError
      end
  | None => ret ("0", "0")
  end.

Definition get_random_slot (lib : string) : M (string * string) :=
  result <- lib_or_drv_status (MtxFullSlots lib) ;;
  let full_slots_lst := Re.findall full_slots_re (stdout result) in
  rand_int <- randint 0 (Z.of_nat (length full_slots_lst) - 1) ;;
  match py_index full_slots_lst rand_int with
  | Some line =>
      ret (Re.sub slot_number_re [TGroup 1] line,
           rstrip (Re.sub volume_tag_re [TGroup 1] line))
  | None => raise IndexError
  end.

Definition unload (lib slot : string) (drive : nat) : M unit :=
  result <- get_shell_result (MtxUnload lib slot drive) ;;
  chk_cmd_result result.

Definition write_res_file (filename text : string) : M unit :=
  fun st =>
    (Ok tt, {| hw := hw st; rand_calls := rand_calls st;
               events := events st;
               drives_byid_nodes_lst := drives_byid_nodes_lst st;
               lib_dict := lib_dict st;
               archive_device := archive_device st;
               files := (filename, text) :: files st |}).

Definition set_drives (l : list string) : M unit :=
  fun st =>
    (Ok tt, {| hw := hw st; rand_calls := rand_calls st;
               events := events st;
               drives_byid_nodes_lst := l;
               lib_dict := lib_dict st;
               archive_device := archive_device st;
               files := files st |}).

Definition set_lib_dict (d : dict) : M unit :=
  fun st =>
    (Ok tt, {| hw := hw st; rand_calls := rand_calls st;
               events := events st;
               drives_byid_nodes_lst := drives_byid_nodes_lst st;
               lib_dict := d;
               archive_device := archive_device st;
               files := files st |}).

Definition set_archive_device (a : string) : M unit :=
  fun st =>
    (Ok tt, {| hw := hw st; rand_calls := rand_calls st;
               events := events st;
               drives_byid_nodes_lst := drives_byid_nodes_lst st;
               lib_dict := lib_dict st;
               archive_device := Some a;
               files := files st |}).


(** *** Inventory *)

Fixpoint map_m {A B} (f : A -> M B) (l : list A) : M (list B) :=
  match l with
  | [] => ret []
  | x :: l' => y <- f x ;; ys <- map_m f l' ;; ret (y :: ys)
  end.

Definition lib_byid_text (lib_sg : string) : string :=
  ".* (scsi-.+?) ->.*/" ++ lib_sg ++ ".*".

Definition drive_byid_text (drive_st : string) : string :=
  ".* (scsi-.+?) ->.*/n" ++ drive_st ++ nls ++ ".*".

Definition byid_node (re : string -> pattern) (text : string -> string)
           (node dev_tape_by_id_txt : string) : M string :=
  if plain_node node
  then ret (Re.sub (re node) [TGroup 1] dev_tape_by_id_txt)
  else match re_sub_python (text node) dev_tape_by_id_txt with
       | Some s => ret s
       | None => raise ReError
       end.

(** Leaves the drives' by-id nodes in [drives_byid_nodes_lst] and
    returns [libs_byid_nodes_lst].  [str.split] never returns an empty
    list, so the script's tests [num_libs != 0] and [num_drives != 0]
    always succeed. *)
Definition inventory : M (list string) :=
  result <- get_shell_result LsscsiLibs ;;
  chk_cmd_result result ;;;
  let libs_sg_lst := split_nl (rstrip_nl (stdout result)) in
  result <- get_shell_result LsscsiAll ;;
  chk_cmd_result result ;;;
  result <- get_shell_result LsById ;;
  chk_cmd_result result ;;;
  let dev_tape_by_id_txt := rstrip_nl (stdout result) in
  libs_byid_nodes_lst <-
    map_m (fun lib_sg => byid_node lib_byid_re lib_byid_text lib_sg
                                   dev_tape_by_id_txt) libs_sg_lst ;;
  result <- get_shell_result LsscsiDrives ;;
  chk_cmd_result result ;;;
  let drives_st_lst := split_nl (rstrip_nl (stdout result)) in
  drives <-
    map_m (fun drive_st => byid_node drive_byid_re drive_byid_text drive_st
                                     dev_tape_by_id_txt) drives_st_lst ;;
  set_drives drives ;;;
  ret libs_byid_nodes_lst.

(** *** The [offline] commands *)

Definition send_offline : M unit :=
  if offline cfg then
    st <- get ;;
    for_each (drives_byid_nodes_lst st)
             (fun drive_byid =>
                result <- get_shell_result (MtOffline drive_byid) ;;
                chk_cmd_result result)
  else ret tt.

(** *** Unloading every drive of every library found *)

Definition count_drives (status : string) : nat :=
  length (Re.findall drive_element_re status).

Definition unload_drive (lib : string) (drive_index : nat) : M unit :=
  sv <- loaded lib drive_index ;;
  let (slot_loaded, vol_loaded) := (sv : string * string) in
  if negb (String.eqb slot_loaded "0")
  then unload lib slot_loaded drive_index
  else ret tt.

Definition unload_library (lib : string) : M unit :=
  result <- lib_or_drv_status (MtxStatus lib) ;;
  let num_drives := count_drives (stdout result) in
  while_below num_drives (unload_drive lib).

Definition unload_all (libs_byid_nodes_lst : list string) : M unit :=
  for_each libs_byid_nodes_lst unload_library.

(** *** Identifying the drive behind every index *)

(** The [for drive_byid_node in drives_byid_nodes_lst] loop.  The list
    is changed only on the way to [break], so that walking the list as
    it was when the loop began is walking the list itself. *)
Fixpoint test_byid_nodes (ready lib slot : string) (drive_index : nat)
         (nodes : list string) : M unit :=
  match nodes with
  | [] => ret tt
  | drive_byid_node :: rest =>
      result <- lib_or_drv_status (MtStatus drive_byid_node) ;;
      match Re.search (ready_re ready) (stdout result) with
      | Some _ =>
          st <- get ;;
          set_lib_dict
            (dict_append (lib_dict st) lib (drive_byid_node, drive_index)) ;;;
          st <- get ;;
          set_drives (PyStr.remove drive_byid_node (drives_byid_nodes_lst st)) ;;;
          unload lib slot drive_index
      | None => test_byid_nodes ready lib slot drive_index rest
      end
  end.

Definition identify_drive_index (ready lib : string) (drive_index : nat)
  : M unit :=
  sv <- get_random_slot lib ;;
  let (slot, vol) := (sv : string * string) in
  result <- get_shell_result (MtxLoad lib slot drive_index) ;;
  chk_cmd_result result ;;;
  sleep (sleep_secs cfg) ;;;
  st <- get ;;
  test_byid_nodes ready lib slot drive_index (drives_byid_nodes_lst st).

Definition identify_library (ready lib : string) : M unit :=
  result <- lib_or_drv_status (MtxStatus lib) ;;
  let num_drives := count_drives (stdout result) in
  if mem lib (libs_to_skip cfg) then ret tt
  else while_below num_drives (identify_drive_index ready lib).

Definition identify_all (ready : string) (libs_byid_nodes_lst : list string)
  : M unit :=
  for_each libs_byid_nodes_lst (identify_library ready).

(** *** The report: log lines, and a sort of the drives left over *)

Fixpoint insert_sorted (x : string) (l : list string) : list string :=
  match l with
  | [] => [x]
  | y :: l' => if String.leb x y then x :: l else y :: insert_sorted x l'
  end.

Definition sort_strings (l : list string) : list string :=
  fold_right insert_sorted [] l.

Definition report : M unit :=
  st <- get ;;
  if (length (drives_byid_nodes_lst st) =? 0)%nat then ret tt
  else set_drives (sort_strings (drives_byid_nodes_lst st)).

(** *** Generating the resource files *)

Definition progname : string := "Bacula Resource Auto Creator".
Definition version : string := "0.09".

Definition lower_name_and_time : string :=
  "bacula-resource-auto-creator_" ++ date_stamp.
Definition work_dir : string := "/tmp/" ++ lower_name_and_time.
Definition created_by_str : string :=
  "Created by " ++ progname ++ " v" ++ version ++ " - " ++ date_stamp.

Definition director_storage_tpl : string :=
  join nls
    [ "Storage {"; "  Name ="; "  Description ="; "  Address =";
      "  Password ="; "  Autochanger ="; "  Device =";
      "  MaximumConcurrentJobs ="; "  MediaType ="; "  SdPort = 9103"; "}" ].

Definition storage_autochanger_tpl : string :=
  join nls
    [ "Autochanger {"; "  Name ="; "  Description =";
      "  ChangerCommand = " ++ dq
        ++ "/opt/bacula/scripts/mtx-changer %c %o %S %a %d" ++ dq;
      "  ChangerDevice ="; "  Device ="; "}" ].

Definition storage_device_tpl : string :=
  join nls
    [ "Device {"; "  Name ="; "  Description ="; "  DriveIndex =";
      "  DeviceType = Tape"; "  MediaType ="; "  Autochanger = yes";
      "  AlwaysOpen = yes"; "  AutomaticMount = yes"; "  LabelMedia = no";
      "  RandomAccess = no"; "  RemovableMedia = yes";
      "  MaximumConcurrentJobs = 1"; "  ArchiveDevice ="; "}" ].

(** A run of [txt = txt.replace(old, new)] statements. *)
Definition replace_each (subst : list (string * string)) (txt : string)
  : string :=
  fold_left (fun t on => replace (fst on) (snd on) t) subst txt.

Definition autochanger_name_of (lib : string) : string :=
  "Autochanger_" ++ replace "scsi-" "" lib.

Definition director_storage_txt (lib : string) (drives : nat) : string :=
  let autochanger_name := autochanger_name_of lib in
  replace_each
    [ ("Name =", "Name = " ++ dq ++ autochanger_name ++ dq);
      ("Description =",
       "Description = " ++ dq ++ "Autochanger with (" ++ str_of_nat drives
         ++ ") drives - " ++ created_by_str ++ dq);
      ("Address =",
       "Address = " ++ dq ++ "127.0.0.1" ++ dq
         ++ "       # You *must* replace this with the correct FQDN!");
      ("Password =",
       "Password = " ++ dq ++ "wrongPassword" ++ dq
         ++ "  # You *must* replace this with the correct password for the SD @ Address");
      ("Autochanger =", "Autochanger = " ++ dq ++ autochanger_name ++ dq);
      ("Device =", "Device = " ++ dq ++ autochanger_name ++ dq);
      ("MaximumConcurrentJobs =",
       "MaximumConcurrentJobs = " ++ str_of_nat drives);
      ("MediaType =", "MediaType = " ++ dq ++ replace "scsi-" "" lib ++ dq) ]
    director_storage_tpl.

(** The autochanger text before its [Device] line is filled in. *)
Definition autochanger_head_txt (lib : string) : string :=
  let autochanger_name := autochanger_name_of lib in
  replace_each
    [ ("Name =", "Name = " ++ dq ++ autochanger_name ++ dq);
      ("Description =", "Description = " ++ dq ++ created_by_str ++ dq);
      ("ChangerDevice =", "ChangerDevice = " ++ dq ++ by_id ++ lib ++ dq) ]
    storage_autochanger_tpl.

(** The device text before its [ArchiveDevice] line is filled in. *)
Definition device_head_txt (lib : string) (dev : nat) : string :=
  let autochanger_name := autochanger_name_of lib in
  replace_each
    [ ("Name =",
       "Name = " ++ dq ++ autochanger_name ++ "_Dev" ++ str_of_nat dev ++ dq);
      ("Description =",
       "Description = " ++ dq ++ "Drive " ++ str_of_nat dev ++ " in "
         ++ autochanger_name ++ " - " ++ created_by_str ++ dq);
      ("DriveIndex =", "DriveIndex = " ++ str_of_nat dev);
      ("MediaType =", "MediaType = " ++ dq ++ replace "scsi-" "" lib ++ dq) ]
    storage_device_tpl.

Definition device_txt (lib : string) (dev : nat) (archive : string) : string :=
  replace "ArchiveDevice ="
          ("ArchiveDevice = " ++ dq ++ by_id ++ archive ++ dq)
          (device_head_txt lib dev).

Definition device_file (lib : string) (dev : nat) : string :=
  work_dir ++ "/StorageDevice_" ++ autochanger_name_of lib ++ "_Dev"
    ++ str_of_nat dev ++ ".cfg".

(** [for drive_index_tuple in lib_dict[lib]]: every pair with the index
    [dev] overwrites the module-level [archive_device]. *)
Definition pick_archive_device (entries : list entry) (dev : nat) : M unit :=
  for_each entries
           (fun drive_index_tuple =>
              if (snd drive_index_tuple =? dev)%nat
              then set_archive_device (fst drive_index_tuple)
              else ret tt).

(** The device file of one turn of [while dev < len(lib_dict[lib])];
    reading [archive_device] before anything was assigned to it is a
    [NameError]. *)
Definition generate_device (lib : string) (entries : list entry) (dev : nat)
  : M unit :=
  pick_archive_device entries dev ;;;
  st <- get ;;
  match archive_device st with
  | Some a => write_res_file (device_file lib dev) (device_txt lib dev a)
  | None => raise (NameError "archive_device")
  end.

(** The [while dev < len(lib_dict[lib])] loop, which also collects the
    device names for the autochanger's [Device] line. *)
Fixpoint generate_devices (lib : string) (entries : list entry)
         (devs : list nat) (autochanger_dev_str : string) : M string :=
  match devs with
  | [] => ret autochanger_dev_str
  | dev :: rest =>
      let autochanger_dev_str :=
        autochanger_dev_str ++ dq ++ autochanger_name_of lib ++ "_Dev"
          ++ str_of_nat dev ++ dq
          ++ (if (Z.of_nat dev <=? Z.of_nat (length entries) - 2)%Z
              then ", " else "") in
      generate_device lib entries dev ;;;
      generate_devices lib entries rest autochanger_dev_str
  end.

Definition generate_library (lib : string) (entries : list entry) : M unit :=
  let autochanger_name := autochanger_name_of lib in
  write_res_file (work_dir ++ "/DirectorStorage_" ++ autochanger_name ++ ".cfg")
                 (director_storage_txt lib (length entries)) ;;;
  autochanger_dev_str <-
    generate_devices lib entries (seq 0 (length entries)) "" ;;
  write_res_file
    (work_dir ++ "/StorageAutochanger_" ++ autochanger_name ++ ".cfg")
    (replace " Device =" (" Device = " ++ autochanger_dev_str)
             (autochanger_head_txt lib)).

Definition generate_all : M unit :=
  st <- get ;;
  for_each (lib_dict st) (fun kv => generate_library (fst kv) (snd kv)).

(** *** The script, top to bottom *)

Definition script : M unit :=
  uname <- get_uname ;;
  ready <- get_ready_str uname ;;
  libs_byid_nodes_lst <- inventory ;;
  send_offline ;;;
  unload_all libs_byid_nodes_lst ;;;
  identify_all ready libs_byid_nodes_lst ;;;
  report ;;;
  generate_all.

(** ** Properties of the script *)

(** The answers of the hardware to a sequence of commands, and the
    hardware afterwards. *)
Fixpoint answers (w : world) (cs : list command) : list cmd_result * world :=
  match cs with
  | [] => ([], w)
  | c :: cs' =>
      let (r, w1) := run_shell w (shell_text c) in
      let (rs, w2) := answers w1 cs' in
      (r :: rs, w2)
  end.

(** The events of a sequence of commands with their answers, newest
    first. *)
Definition ran (cs : list command) (rs : list cmd_result) : list event :=
  rev (map (fun cr => Ran (fst cr) (snd cr)) (combine cs rs)).

Definition not_ready (ready : string) (r : cmd_result) : Prop :=
  returncode r = 0%Z /\ Re.search (ready_re ready) (stdout r) = None.

(** The status query at which the scan of the drives ends: one that
    leaves with a non-zero exit code, or one whose text matches the
    ready marker. *)
Definition ends_scan (ready : string) (r : cmd_result) : Prop :=
  returncode r <> 0%Z \/ Re.search (ready_re ready) (stdout r) <> None.

(** The state after the resource generator has set [archive_device] and
    written files; nothing else changes. *)
Definition rendered (st : state) (a : option string)
           (f : list (string * string)) : state :=
  {| hw := hw st; rand_calls := rand_calls st; events := events st;
     drives_byid_nodes_lst := drives_byid_nodes_lst st;
     lib_dict := lib_dict st; archive_device := a; files := f |}.

Definition or_else {A} (x y : option A) : option A :=
  match x with Some _ => x | None => y end.

(** The identifier of the last pair of [entries] whose index is [dev]. *)
Definition entry_for (entries : list entry) (dev : nat) : option string :=
  option_map fst (find (fun e => (snd e =? dev)%nat) (rev entries)).

(** What [archive_device] holds when the device file of position [dev]
    is written, [cur] being its value before position 0: the identifier
    of the entry for [dev] if there is one, and else whatever the turn
    before has left there. *)
Fixpoint carried (cur : option string) (entries : list entry) (dev : nat)
  : option string :=
  or_else (entry_for entries dev)
          match dev with
          | O => cur
          | S d => carried cur entries d
          end.

Definition before (cur : option string) (entries : list entry) (k : nat)
  : option string :=
  match k with
  | O => cur
  | S j => carried cur entries j
  end.

Definition archive_at (cur : option string) (entries : list entry) (dev : nat)
  : string :=
  match carried cur entries dev with Some a => a | None => "" end.

(** The device files of positions [k .. k + m - 1], oldest first. *)
Definition device_files (lib : string) (cur : option string)
           (entries : list entry) (k m : nat) : list (string * string) :=
  map (fun dev => (device_file lib dev,
                   device_txt lib dev (archive_at cur entries dev)))
      (seq k m).

(** The names collected for the [Device] line of the autochanger. *)
Definition device_names (lib : string) (total k m : nat) : string :=
  fold_right append ""
    (map (fun dev =>
            dq ++ autochanger_name_of lib ++ "_Dev" ++ str_of_nat dev ++ dq
               ++ (if (Z.of_nat dev <=? Z.of_nat total - 2)%Z
                   then ", " else ""))
         (seq k m)).

(** Forgetting the value a computation returns. *)
Definition erase {A} (o : outcome A) : outcome unit :=
  match o with
  | Ok _ => Ok tt
  | Exit c => Exit c
  | Raise e => Raise e
  end.

(** A computation satisfies a relation between the state before, the way
    it ends and the state after. *)
Definition sat (R : state -> outcome unit -> state -> Prop) {A} (m : M A)
  : Prop :=
  forall st, R st (erase (fst (m st))) (snd (m st)).

(** The commands whose exit code the script reads itself instead of
    handing it to [chk_cmd_result]: the two probes of [get_ready_str]. *)
Definition unchecked (c : command) : Prop :=
  c = MtVersionMtSt \/ c = MtVersionCpio.

Definition clean (e : event) : Prop :=
  match e with
  | Ran c r => returncode r = 0%Z \/ unchecked c
  | Slept _ => True
  end.

(** Every new command has left with exit code zero, unless the run has
    exited, and then it has exited with the non-zero code of the newest
    command. *)
Definition fatal_on_failure (st : state) (o : outcome unit) (st' : state)
  : Prop :=
  exists new,
    events st' = (new ++ events st)%list /\
    match o with
    | Exit code =>
        code <> 0%Z /\
        exists c r older,
          new = Ran c r :: older /\ returncode r = code /\ Forall clean older
    | _ => Forall clean new
    end.

(** The events that are no load into a drive of library [L], and those
    that are neither a load nor an unload there. *)
Definition no_load (L : string) (e : event) : Prop :=
  match e with
  | Ran (MtxLoad lib _ _) _ => lib <> L
  | _ => True
  end.

Definition no_load_unload (L : string) (e : event) : Prop :=
  match e with
  | Ran (MtxLoad lib _ _) _ => lib <> L
  | Ran (MtxUnload lib _ _) _ => lib <> L
  | _ => True
  end.

(** Every new event satisfies [P] and the entries of library [L] in
    [lib_dict] are what they were. *)
Definition spares (P : event -> Prop) (L : string)
           (st : state) (o : outcome unit) (st' : state) : Prop :=
  (exists new, events st' = (new ++ events st)%list /\ Forall P new)
  /\ dict_get (lib_dict st') L = dict_get (lib_dict st) L.

(** What the resource generator must leave alone. *)
Definition hardware_untouched (st : state) (o : outcome unit) (st' : state)
  : Prop :=
  hw st' = hw st /\ events st' = events st /\
  rand_calls st' = rand_calls st /\
  drives_byid_nodes_lst st' = drives_byid_nodes_lst st /\
  lib_dict st' = lib_dict st.

(** The discovery result so far and the drives not yet matched. *)
Definition view : Type := (dict * list string)%type.

Definition view_of (st : state) : view :=
  (lib_dict st, drives_byid_nodes_lst st).

Definition keeps_view (st : state) (o : outcome unit) (st' : state) : Prop :=
  view_of st' = view_of st.

(** The identifiers that have an entry, over all libraries. *)
Definition ids (d : dict) : list string := map fst (flat_map snd d).

(** What one turn of the discovery loop for [lib] and [i] can do to the
    view: nothing, or move one of the remaining identifiers into the
    entries of [lib], with index [i]. *)
Inductive assigns (lib : string) (i : nat) : view -> view -> Prop :=
| assigns_none v : assigns lib i v v
| assigns_one d l x :
    In x l -> assigns lib i (d, l) (dict_append d lib (x, i), PyStr.remove x l).

(** Turns for the indices [i], [i + 1], ... of [lib], in this order. *)
Inductive trail (lib : string) : nat -> view -> view -> Prop :=
| trail_done i v : trail lib i v v
| trail_turn i v1 v2 v3 :
    assigns lib i v1 v2 -> trail lib (S i) v2 v3 -> trail lib i v1 v3.

(** The invariant of the discovery between two libraries, [done] being
    the libraries dealt with: every key of [lib_dict] is a library
    dealt with, and the indices of a library are distinct. *)
Definition settled (done : list string) (v : view) : Prop :=
  Forall (fun kv => In (fst kv) done /\ NoDup (map snd (snd kv))) (fst v).

(** The invariant before the turn of index [i] of library [lib]. *)
Definition turning (done : list string) (lib : string) (i : nat) (v : view)
  : Prop :=
  Forall (fun kv =>
            In (fst kv) (lib :: done) /\ NoDup (map snd (snd kv)) /\
            (fst kv = lib -> Forall (fun e => snd e < i) (snd kv)))
         (fst v).

(** [m] occurs in [s]. *)
Definition occurs (m s : string) : Prop := exists a b, s = a ++ m ++ b.

(** The same, decided. *)
Fixpoint occursb (m s : string) : bool :=
  String.prefix m s ||
  match s with
  | EmptyString => false
  | String _ s' => occursb m s'
  end.

Definition drive_marker : string := "Data Transfer Element".

(** A line of a changer status report, as far as the drives go: a drive
    element record begins with the marker and does not hold it a second
    time; no other line holds it. *)
Fixpoint drop (n : nat) (s : string) : string :=
  match n, s with
  | S k, String _ s' => drop k s'
  | _, _ => s
  end.

Definition status_line (l : string) : Prop :=
  if String.prefix drive_marker l
  then ~ occurs drive_marker (drop (String.length drive_marker) l)
  else ~ occurs drive_marker l.

Definition status_lineb (l : string) : bool :=
  negb (occursb drive_marker
          (if String.prefix drive_marker l
           then drop (String.length drive_marker) l else l)).

Definition drive_records (lines : list string) : list string :=
  filter (String.prefix drive_marker) lines.


(** The markers [get_ready_str] can return and the systems it knows. *)
Definition ready_markers : list string :=
  [ "drive status"; "ONLINE"; "No Additional Sense";
    "Current Driver State: at rest."; "ds=3<Mounted>" ].

Definition known_unames : list string :=
  [ "Linux"; "SunOS"; "FreeBSD"; "OpenBSD" ].

(** A computation that, when it returns, returns a value with [Q]. *)
Definition returns {A} (Q : A -> state -> Prop) (m : M A) : Prop :=
  forall st a st', m st = (Ok a, st') -> Q a st'.


(** The events of the phase that unloads the drives of the libraries
    [libs]: status queries and unloads of these libraries. *)
Definition unloading_event (libs : list string) (e : event) : Prop :=
  match e with
  | Ran (MtxStatus lib) _ => In lib libs
  | Ran (MtxUnload lib _ _) _ => In lib libs
  | _ => False
  end.


(** The director file and the autochanger file of a library with [n]
    entries, as name and text. *)
Definition director_file (lib : string) (n : nat) : string * string :=
  (work_dir ++ "/DirectorStorage_" ++ autochanger_name_of lib ++ ".cfg",
   director_storage_txt lib n).

Definition autochanger_file (lib : string) (n : nat) : string * string :=
  (work_dir ++ "/StorageAutochanger_" ++ autochanger_name_of lib ++ ".cfg",
   replace " Device =" (" Device = " ++ device_names lib n 0 n)
           (autochanger_head_txt lib)).


(** The new events of a computation form a segment with [G]. *)
Definition segment (G : list event -> Prop)
           (st : state) (o : outcome unit) (st' : state) : Prop :=
  exists new, events st' = (new ++ events st)%list /\ G new.

(** What may come directly before an event: a drive is asked for its
    status only right after the settle delay or right after another
    drive gave its status with exit code zero, and the settle delay of
    [n] seconds only comes right after a load that succeeded. *)
Definition may_follow (n : nat) (older newer : event) : Prop :=
  match newer with
  | Ran (MtStatus _) _ =>
      match older with
      | Ran (MtStatus _) r => returncode r = 0%Z
      | Slept _ => True
      | _ => False
      end
  | Slept m =>
      m = n /\
      match older with
      | Ran (MtxLoad _ _ _) r => returncode r = 0%Z
      | _ => False
      end
  | _ => True
  end.

Definition needs_before (e : event) : Prop :=
  match e with
  | Ran (MtStatus _) _ => True
  | Slept _ => True
  | _ => False
  end.

(** A segment of events, newest first, that is paced: every event in it
    comes after what it may follow, within the segment. *)
Fixpoint paced (n : nat) (l : list event) : Prop :=
  match l with
  | [] => True
  | e :: rest =>
      match rest with
      | [] => ~ needs_before e
      | o :: _ => may_follow n o e
      end /\ paced n rest
  end.

(** The load most recently issued in a list of events, newest first. *)
Fixpoint last_load (l : list event) : option (string * string * nat) :=
  match l with
  | [] => None
  | Ran (MtxLoad lib slot i) _ :: _ => Some (lib, slot, i)
  | _ :: rest => last_load rest
  end.

(** Every unload of the segment puts the tape back where the load
    before it, in the segment, took it from. *)
Fixpoint returned (l : list event) : Prop :=
  match l with
  | [] => True
  | e :: rest =>
      match e with
      | Ran (MtxUnload lib slot i) _ => last_load rest = Some (lib, slot, i)
      | _ => True
      end /\ returned rest
  end.

(** What a drive status query may directly follow. *)
Definition scan_may_follow (older : event) : Prop :=
  match older with
  | Ran (MtStatus _) r => returncode r = 0%Z
  | Slept _ => True
  | _ => False
  end.

(** A computation that writes no resource file. *)
Definition writes_nothing (st : state) (o : outcome unit) (st' : state)
  : Prop :=
  files st' = files st.

(** The text that marks drive [index] as loaded in a changer status
    report. *)
Definition full_marker (index : nat) : string :=
  "Data Transfer Element " ++ str_of_nat index ++ ":Full".

(** Every position [0 .. n - 1] of a library with [n] entries has an
    entry. *)
Definition covers (entries : list entry) : bool :=
  forallb (fun dev => existsb (fun e => (snd e =? dev)%nat) entries)
          (seq 0 (length entries)).

(** The files of a library all of whose positions have an entry, and
    the files of a whole dictionary of such libraries, newest first. *)
Definition library_files (lib : string) (entries : list entry)
  : list (string * string) :=
  (autochanger_file lib (length entries)
   :: rev (device_files lib None entries 0 (length entries))
   ++ [director_file lib (length entries)])%list.

Fixpoint all_files (d : dict) : list (string * string) :=
  match d with
  | [] => []
  | kv :: d' => (all_files d' ++ library_files (fst kv) (snd kv))%list
  end.

(** *** Lemmas *)

Lemma answers_length w cs :
  length (fst (answers w cs)) = length cs.
Proof.
  revert w; induction cs as [|c cs IH]; intros w; simpl; [reflexivity|].
  destruct (run_shell w (shell_text c)) as [r w1].
  specialize (IH w1). destruct (answers w1 cs) as [rs w2]. simpl in *.
  now rewrite IH.
Qed.

Lemma answers_cons w c cs :
  answers w (c :: cs) =
  (fst (run_shell w (shell_text c))
     :: fst (answers (snd (run_shell w (shell_text c))) cs),
   snd (answers (snd (run_shell w (shell_text c))) cs)).
Proof.
  simpl. destruct (run_shell w (shell_text c)) as [r w1]; simpl.
  now destruct (answers w1 cs).
Qed.

Lemma ran_cons c r cs rs :
  ran (c :: cs) (r :: rs) = (ran cs rs ++ [Ran c r])%list.
Proof. reflexivity. Qed.

(** The scan of the identifiers that are not ready yet leaves the
    variables of the script alone and goes on with the rest. *)
Lemma test_byid_nodes_skip ready lib slot idx pre rest st rs w' :
  answers (hw st) (map MtStatus pre) = (rs, w') ->
  Forall (not_ready ready) rs ->
  test_byid_nodes ready lib slot idx (pre ++ rest)%list st =
  test_byid_nodes ready lib slot idx rest
    {| hw := w'; rand_calls := rand_calls st;
       events := (ran (map MtStatus pre) rs ++ events st)%list;
       drives_byid_nodes_lst := drives_byid_nodes_lst st;
       lib_dict := lib_dict st;
       archive_device := archive_device st;
       files := files st |}.
Proof.
  revert st rs. induction pre as [|d pre IH]; intros st rs Ha Hn.
  - simpl in Ha. inversion Ha; subst. destruct st; reflexivity.
  - change (map MtStatus (d :: pre)) with (MtStatus d :: map MtStatus pre) in *.
    rewrite answers_cons in Ha.
    destruct (run_shell (hw st) (shell_text (MtStatus d))) as [r w1] eqn:E.
    simpl in Ha. inversion Ha; subst; clear Ha.
    inversion Hn as [|r0 rs0 [Hrc Hs] Hrest]; subst.
    change ((d :: pre) ++ rest)%list with (d :: (pre ++ rest))%list.
    cbn [test_byid_nodes].
    unfold bind at 1. unfold lib_or_drv_status, bind, get_shell_result.
    rewrite E. unfold chk_cmd_result. rewrite Hrc. simpl.
    rewrite Hs.
    erewrite IH; [| simpl; apply surjective_pairing | exact Hrest ].
    simpl. rewrite ran_cons. rewrite <- app_assoc. reflexivity.
Qed.


Lemma answers_app w cs1 cs2 :
  answers w (cs1 ++ cs2)%list =
  ((fst (answers w cs1) ++ fst (answers (snd (answers w cs1)) cs2))%list,
   snd (answers (snd (answers w cs1)) cs2)).
Proof.
  revert w; induction cs1 as [|c cs1 IH]; intros w.
  - simpl. now destruct (answers w cs2).
  - change ((c :: cs1) ++ cs2)%list with (c :: (cs1 ++ cs2))%list.
    rewrite !answers_cons, IH. reflexivity.
Qed.

Lemma answers_snoc w cs c rs r w2 :
  answers w (cs ++ [c])%list = ((rs ++ [r])%list, w2) ->
  exists w1, answers w cs = (rs, w1) /\ run_shell w1 (shell_text c) = (r, w2).
Proof.
  intros H. rewrite answers_app in H.
  pose proof (answers_length w cs) as Hl.
  destruct (answers w cs) as [rs1 w1]. simpl in H, Hl.
  destruct (run_shell w1 (shell_text c)) as [r1 w3] eqn:E. simpl in H.
  inversion H as [[H1 H2]]. subst w3.
  apply app_inj_tail in H1. destruct H1; subst.
  exists w1. split; [reflexivity | exact E].
Qed.

(** When none of the drives asked becomes ready the scan ends without an
    entry, without an unload and without an error. *)
Lemma test_byid_nodes_none_ready ready lib slot idx nodes st rs w' :
  answers (hw st) (map MtStatus nodes) = (rs, w') ->
  Forall (not_ready ready) rs ->
  test_byid_nodes ready lib slot idx nodes st =
  (Ok tt,
   {| hw := w'; rand_calls := rand_calls st;
      events := (ran (map MtStatus nodes) rs ++ events st)%list;
      drives_byid_nodes_lst := drives_byid_nodes_lst st;
      lib_dict := lib_dict st;
      archive_device := archive_device st;
      files := files st |}).
Proof.
  intros Ha Hn.
  rewrite <- (app_nil_r nodes) at 1.
  erewrite test_byid_nodes_skip; [reflexivity | exact Ha | exact Hn].
Qed.

(** [split] always returns at least one piece, which is why the tests
    [num_libs != 0] and [num_drives != 0] of the script never fail. *)
Lemma split_nl_not_nil (s : string) : split_nl s <> [].
Proof.
  unfold split_nl. generalize "" as cur.
  induction s as [|c s IH]; intros cur; cbn; [discriminate|].
  destruct (Ascii.eqb c nl); [discriminate | apply IH].
Qed.

(** Removing an identifier that does not occur earlier in the list. *)
Lemma remove_first_occurrence d pre post :
  ~ In d pre -> PyStr.remove d (pre ++ d :: post)%list = (pre ++ post)%list.
Proof.
  induction pre as [|x pre IH]; intros Hnot; cbn.
  - now rewrite String.eqb_refl.
  - destruct (String.eqb_spec d x) as [->|Hne].
    + exfalso. apply Hnot. now left.
    + rewrite IH; [reflexivity|]. intros H. apply Hnot. now right.
Qed.

(** A library that is not on the skip list: after its status command
    the turns of the discovery loop follow for the indices 0, 1, ... up
    to the number of drives in the status report. *)
Lemma identify_library_turns ready lib st :
  mem lib (libs_to_skip cfg) = false ->
  let r := fst (run_shell (hw st) (shell_text (MtxStatus lib))) in
  returncode r = 0%Z ->
  identify_library ready lib st =
  for_each (seq 0 (count_drives (stdout r))) (identify_drive_index ready lib)
           (snd (get_shell_result (MtxStatus lib) st)).
Proof.
  intros Hskip r Hrc. subst r.
  unfold identify_library, lib_or_drv_status, bind, get_shell_result.
  destruct (run_shell (hw st) (shell_text (MtxStatus lib))) as [r w].
  cbn [fst snd] in *. unfold chk_cmd_result. rewrite Hrc. cbn [Z.eqb ret].
  now rewrite Hskip.
Qed.

(** C1, as amended.  One turn of the discovery loop for a library that
    is not skipped.  Once a slot is picked and the load has succeeded,
    the script sleeps for the settle delay and then asks the drives
    still in [drives_byid_nodes_lst] for their status, in the order of
    the list, and it looks at the exit code of each status query before
    it looks at its text.  Let [d] be the first drive whose query leaves
    with a non-zero exit code or whose text matches the ready marker.
    If the exit code is not zero the run ends with it at once: nothing
    is recorded, nothing is removed and no unload is issued, whatever
    the text says.  Otherwise the pair ([d], index) is appended to the
    entries of the library, [d] is removed from the list, the unload of
    that slot and index is issued, and no further drive is asked.  The
    command lines are those of the script. *)
Theorem identify_first_ready ready lib idx st slot vol st1 pre d post rl rs r w2 :
  get_random_slot lib st = (Ok (slot, vol), st1) ->
  drives_byid_nodes_lst st1 = (pre ++ d :: post)%list ->
  answers (hw st1) (MtxLoad lib slot idx :: map MtStatus (pre ++ [d]))
    = (rl :: rs ++ [r], w2)%list ->
  returncode rl = 0%Z ->
  Forall (not_ready ready) rs ->
  ends_scan ready r ->
  let unl := run_shell w2 (shell_text (MtxUnload lib slot idx)) in
  let asked := (Ran (MtStatus d) r
                :: ran (map MtStatus pre) rs
                ++ Slept (sleep_secs cfg)
                :: Ran (MtxLoad lib slot idx) rl
                :: events st1)%list in
  identify_drive_index ready lib idx st =
  (if (returncode r =? 0)%Z then
     ((if (returncode (fst unl) =? 0)%Z
       then Ok tt else Exit (returncode (fst unl))),
      {| hw := snd unl;
         rand_calls := rand_calls st1;
         events := Ran (MtxUnload lib slot idx) (fst unl) :: asked;
         drives_byid_nodes_lst := PyStr.remove d (pre ++ d :: post)%list;
         lib_dict := dict_append (lib_dict st1) lib (d, idx);
         archive_device := archive_device st1;
         files := files st1 |})
   else
     (Exit (returncode r),
      {| hw := w2;
         rand_calls := rand_calls st1;
         events := asked;
         drives_byid_nodes_lst := (pre ++ d :: post)%list;
         lib_dict := lib_dict st1;
         archive_device := archive_device st1;
         files := files st1 |}))
  /\ shell_text (MtxLoad lib slot idx)
     = "mtx -f /dev/tape/by-id/" ++ lib ++ " load " ++ slot ++ " "
         ++ str_of_nat idx
  /\ map shell_text (map MtStatus (pre ++ [d]))
     = map (fun x => "mt -f /dev/tape/by-id/" ++ x ++ " status") (pre ++ [d])
  /\ shell_text (MtxUnload lib slot idx)
     = "mtx -f /dev/tape/by-id/" ++ lib ++ " unload " ++ slot ++ " "
         ++ str_of_nat idx.
Proof.
  intros Hslot Hdrives Hans Hload Hnot Hends unl asked.
  split; [| split; [reflexivity | split; [| reflexivity]]].
  2: { rewrite map_map. apply map_ext. reflexivity. }
  rewrite answers_cons in Hans.
  destruct (run_shell (hw st1) (shell_text (MtxLoad lib slot idx)))
    as [rl' w1] eqn:El.
  simpl fst in Hans; simpl snd in Hans.
  inversion Hans as [[H1 H2 H3]]; subst rl'; clear Hans.
  rewrite map_app in *. simpl map in *.
  assert (Hs : answers w1 (map MtStatus pre ++ [MtStatus d])%list
               = ((rs ++ [r])%list, w2)).
  { rewrite <- H2, <- H3. now destruct (answers w1 _). }
  apply answers_snoc in Hs. destruct Hs as (w3 & Hpre & Hd).
  unfold identify_drive_index. unfold bind at 1. rewrite Hslot.
  unfold bind at 1. unfold get_shell_result at 1. rewrite El.
  unfold bind at 1. unfold chk_cmd_result at 1. rewrite Hload.
  cbn [Z.eqb ret]. unfold bind at 1. unfold sleep at 1.
  unfold bind at 1. unfold get at 1.
  cbn [drives_byid_nodes_lst]. rewrite Hdrives.
  erewrite test_byid_nodes_skip; [| cbn [hw]; exact Hpre | exact Hnot ].
  cbn [test_byid_nodes rand_calls events drives_byid_nodes_lst lib_dict
       archive_device files].
  unfold bind at 1. unfold lib_or_drv_status, bind, get_shell_result.
  cbn [hw]. rewrite Hd. unfold chk_cmd_result at 1. subst asked.
  destruct (returncode r =? 0)%Z eqn:Hrc; cbn [ret sys_exit fst snd stdout].
  - apply Z.eqb_eq in Hrc.
    destruct Hends as [Hne | Hready]; [contradiction|].
    destruct (Re.search (ready_re ready) (stdout r)) as [m|]; [|congruence].
    unfold get, set_lib_dict, set_drives, unload, bind, get_shell_result.
    cbn [hw rand_calls events drives_byid_nodes_lst lib_dict archive_device
         files].
    subst unl.
    destruct (run_shell w2 (shell_text (MtxUnload lib slot idx))) as [ru w4].
    cbn [fst snd]. unfold chk_cmd_result.
    destruct (returncode ru =? 0)%Z; reflexivity.
  - rewrite ?H3. reflexivity.
Qed.


(** C9, as amended.  When the pattern for full slots finds nothing in the
    output of the status pipeline, [get_random_slot] returns no slot:
    a non-zero exit code of the pipeline ends the run with that code
    before [randint] is reached, and with exit code zero
    [randint(0, -1)] raises [ValueError].  No random number is drawn in
    either case. *)
Theorem get_random_slot_no_full_slot lib st :
  let r := fst (run_shell (hw st) (shell_text (MtxFullSlots lib))) in
  Re.findall full_slots_re (stdout r) = [] ->
  fst (get_random_slot lib st)
    = (if (returncode r =? 0)%Z then Raise ValueError else Exit (returncode r))
  /\ rand_calls (snd (get_random_slot lib st)) = rand_calls st.
Proof.
  intros r Hnone. subst r.
  unfold get_random_slot, lib_or_drv_status, bind, get_shell_result.
  destruct (run_shell (hw st) (shell_text (MtxFullSlots lib))) as [r w].
  cbn [fst] in *. unfold chk_cmd_result.
  destruct (returncode r =? 0)%Z; cbn [sys_exit ret stdout fst snd rand_calls].
  - rewrite Hnone. unfold randint. cbn. split; reflexivity.
  - split; reflexivity.
Qed.


Lemma append_assoc (a b c : string) : (a ++ b) ++ c = a ++ b ++ c.
Proof. induction a as [|x a IH]; simpl; [reflexivity | now rewrite IH]. Qed.

Lemma append_nil_r (a : string) : a ++ "" = a.
Proof. induction a as [|x a IH]; simpl; [reflexivity | now rewrite IH]. Qed.

Lemma rendered_id st : rendered st (archive_device st) (files st) = st.
Proof. now destruct st. Qed.

Lemma for_each_app {A} (l1 l2 : list A) (body : A -> M unit) st :
  for_each (l1 ++ l2)%list body st =
  bind (for_each l1 body) (fun _ => for_each l2 body) st.
Proof.
  revert st; induction l1 as [|x l1 IH]; intros st; simpl.
  - reflexivity.
  - unfold bind. destruct (body x st) as [[[]|c|e] st1]; auto.
Qed.

(** The inner [for] loop leaves in [archive_device] the identifier of the
    last entry with the index [dev], and the old value when there is
    none. *)
Lemma pick_archive_device_spec entries dev st :
  pick_archive_device entries dev st =
  (Ok tt, rendered st (or_else (entry_for entries dev) (archive_device st))
                   (files st)).
Proof.
  unfold pick_archive_device, entry_for.
  revert st. induction entries as [|[a i] es IH] using rev_ind; intros st.
  - simpl. unfold ret. now rewrite rendered_id.
  - rewrite for_each_app. unfold bind. rewrite IH. clear IH.
    rewrite rev_app_distr. cbn [rev app find snd fst for_each].
    unfold bind. destruct (i =? dev)%nat.
    + reflexivity.
    + reflexivity.
Qed.

Lemma generate_device_spec lib entries dev st :
  generate_device lib entries dev st =
  match or_else (entry_for entries dev) (archive_device st) with
  | Some a =>
      (Ok tt, rendered st (Some a)
                       ((device_file lib dev, device_txt lib dev a) :: files st))
  | None => (Raise (NameError "archive_device"), st)
  end.
Proof.
  unfold generate_device, bind. rewrite pick_archive_device_spec.
  unfold get. cbn [rendered archive_device].
  destruct (or_else (entry_for entries dev) (archive_device st)) eqn:E.
  - reflexivity.
  - unfold raise. f_equal. destruct st; cbn in *.
    destruct (entry_for entries dev); [discriminate|]. cbn in E. now subst.
Qed.

Lemma carried_before cur entries k :
  carried cur entries k = or_else (entry_for entries k) (before cur entries k).
Proof. destruct k; reflexivity. Qed.

Lemma generate_devices_from lib entries cur k m acc st :
  archive_device st = before cur entries k ->
  (m <> 0 -> carried cur entries k <> None) ->
  generate_devices lib entries (seq k m) acc st =
  (Ok (acc ++ device_names lib (length entries) k m),
   rendered st (before cur entries (k + m))
            (rev (device_files lib cur entries k m) ++ files st)%list).
Proof.
  revert k acc st. induction m as [|m IH]; intros k acc st Hcur Hsome.
  - cbn. unfold ret. rewrite append_nil_r, Nat.add_0_r, <- Hcur.
    now rewrite rendered_id.
  - cbn [seq generate_devices]. unfold bind.
    rewrite generate_device_spec, Hcur, <- carried_before.
    destruct (carried cur entries k) as [a|] eqn:Ea;
      [| exfalso; apply Hsome; [discriminate | reflexivity]].
    rewrite IH.
    + unfold device_files, device_names, archive_at.
      cbn [seq map fold_right rev rendered hw rand_calls events
           drives_byid_nodes_lst lib_dict archive_device files].
      rewrite Ea, <- app_assoc, !append_assoc, Nat.add_succ_r.
      repeat (cbn [append]; rewrite ?append_assoc). reflexivity.
    + cbn. symmetry. exact Ea.
    + intros _. cbn [carried]. rewrite Ea.
      now destruct (entry_for entries (S k)).
Qed.


Lemma prefix_drop (m s : string) :
  String.prefix m s = true -> s = m ++ drop (String.length m) s.
Proof.
  revert s. induction m as [|c m IH]; intros s H; [reflexivity|].
  destruct s as [|d s]; cbn in H; [discriminate|].
  destruct (ascii_dec c d) as [->|]; [|discriminate].
  cbn. f_equal. now apply IH.
Qed.

Lemma prefix_occurs (m s : string) : String.prefix m s = true -> occurs m s.
Proof.
  intros H. exists "", (drop (String.length m) s). now apply prefix_drop.
Qed.

(** *** The text of a device file *)











Lemma entry_for_none entries dev :
  entry_for entries dev = None -> forall b, ~ In (b, dev) entries.
Proof.
  unfold entry_for. intros H b Hin.
  destruct (find (fun e => (snd e =? dev)%nat) (rev entries)) eqn:E;
    [discriminate|].
  pose proof (find_none _ _ E (b, dev)) as Hf.
  rewrite <- in_rev in Hf. specialize (Hf Hin).
  cbn in Hf. rewrite Nat.eqb_refl in Hf. discriminate.
Qed.



(** *** Relations that compose along the script *)

Section Sequenced.

Variable R : state -> outcome unit -> state -> Prop.
Hypothesis R_refl : forall st, R st (Ok tt) st.
Hypothesis R_trans :
  forall st1 st2 st3 o, R st1 (Ok tt) st2 -> R st2 o st3 -> R st1 o st3.

Lemma sat_ret {A} (a : A) : sat R (ret a).
Proof. intros st. apply R_refl. Qed.

Lemma sat_get : sat R get.
Proof. intros st. apply R_refl. Qed.

Lemma sat_bind {A B} (m : M A) (f : A -> M B) :
  sat R m -> (forall a, sat R (f a)) -> sat R (bind m f).
Proof.
  intros Hm Hf st. unfold bind. specialize (Hm st).
  destruct (m st) as [[a|c|e] st1]; cbn in *; try exact Hm.
  eapply R_trans; [exact Hm | apply Hf].
Qed.

Lemma sat_for_each {A} (l : list A) (body : A -> M unit) :
  (forall x, sat R (body x)) -> sat R (for_each l body).
Proof.
  intros Hb. induction l as [|x l IH]; cbn [for_each].
  - apply sat_ret.
  - apply sat_bind; [apply Hb | intros _; exact IH].
Qed.

Lemma sat_while_below n (body : nat -> M unit) :
  (forall i, sat R (body i)) -> sat R (while_below n body).
Proof. intros Hb. apply sat_for_each, Hb. Qed.

Lemma sat_map_m {A B} (f : A -> M B) (l : list A) :
  (forall x, sat R (f x)) -> sat R (map_m f l).
Proof.
  intros Hf. induction l as [|x l IH]; cbn [map_m].
  - apply sat_ret.
  - apply sat_bind; [apply Hf | intros y].
    apply sat_bind; [exact IH | intros ys; apply sat_ret].
Qed.

End Sequenced.

(** *** Every checked command is fatal when it fails *)

Lemma fatal_refl st : fatal_on_failure st (Ok tt) st.
Proof. exists []. split; [reflexivity | constructor]. Qed.

Lemma fatal_trans st1 st2 st3 o :
  fatal_on_failure st1 (Ok tt) st2 -> fatal_on_failure st2 o st3 ->
  fatal_on_failure st1 o st3.
Proof.
  intros (n1 & E1 & H1) (n2 & E2 & H2).
  exists (n2 ++ n1)%list. split; [now rewrite E2, E1, app_assoc|].
  destruct o as [[]|code|e].
  - apply Forall_app; split; assumption.
  - destruct H2 as (Hc & c & r & older & -> & Hr & Ho). split; [exact Hc|].
    exists c, r, (older ++ n1)%list. repeat split; try assumption.
    apply Forall_app; split; assumption.
  - apply Forall_app; split; assumption.
Qed.

Lemma fatal_quiet {A} (m : M A) :
  (forall st, events (snd (m st)) = events st) ->
  (forall st c, fst (m st) <> Exit c) ->
  sat fatal_on_failure m.
Proof.
  intros He Hx st. exists []. split; [apply He|].
  specialize (Hx st). destruct (fst (m st)) as [a|code|e]; cbn.
  - constructor.
  - exfalso. now apply (Hx code).
  - constructor.
Qed.

(** A command followed by [chk_cmd_result], and then the rest. *)
Lemma fatal_checked {A} (c : command) (k : cmd_result -> M A) :
  (forall r, sat fatal_on_failure (k r)) ->
  sat fatal_on_failure
      (bind (get_shell_result c)
            (fun r => bind (chk_cmd_result r) (fun _ => k r))).
Proof.
  intros Hk st. unfold bind, get_shell_result, chk_cmd_result.
  destruct (run_shell (hw st) (shell_text c)) as [r w].
  destruct (returncode r =? 0)%Z eqn:E; cbn [ret sys_exit fst snd].
  - apply Z.eqb_eq in E.
    eapply fatal_trans; [| apply Hk].
    exists [Ran c r]. split; [reflexivity|].
    constructor; [now left | constructor].
  - apply Z.eqb_neq in E. exists [Ran c r]. split; [reflexivity|].
    cbn. split; [exact E|]. exists c, r, []. repeat split. constructor.
Qed.

Lemma fatal_checked_last (c : command) :
  sat fatal_on_failure (bind (get_shell_result c) chk_cmd_result).
Proof.
  intros st. unfold bind, get_shell_result, chk_cmd_result.
  destruct (run_shell (hw st) (shell_text c)) as [r w].
  destruct (returncode r =? 0)%Z eqn:E; cbn [ret sys_exit fst snd].
  - apply Z.eqb_eq in E. exists [Ran c r]. split; [reflexivity|].
    constructor; [now left | constructor].
  - apply Z.eqb_neq in E. exists [Ran c r]. split; [reflexivity|].
    cbn. split; [exact E|]. exists c, r, []. repeat split. constructor.
Qed.

Lemma fatal_unchecked (c : command) :
  unchecked c -> sat fatal_on_failure (get_shell_result c).
Proof.
  intros Hc st. unfold get_shell_result.
  destruct (run_shell (hw st) (shell_text c)) as [r w]. cbn.
  exists [Ran c r]. split; [reflexivity|].
  constructor; [now right | constructor].
Qed.

Lemma fatal_sleep n : sat fatal_on_failure (sleep n).
Proof.
  intros st. exists [Slept n]. split; [reflexivity|].
  repeat constructor.
Qed.

Lemma fatal_bind {A B} (m : M A) (f : A -> M B) :
  sat fatal_on_failure m -> (forall a, sat fatal_on_failure (f a)) ->
  sat fatal_on_failure (bind m f).
Proof.
  intros Hm Hf.
  apply sat_bind; first [exact fatal_refl | exact fatal_trans | assumption].
Qed.

Lemma fatal_ret {A} (a : A) : sat fatal_on_failure (ret a).
Proof. apply sat_ret, fatal_refl. Qed.

Lemma fatal_raise {A} e : sat fatal_on_failure (@raise A e).
Proof. apply fatal_quiet; [reflexivity | discriminate]. Qed.

Lemma fatal_randint a b : sat fatal_on_failure (randint a b).
Proof.
  apply fatal_quiet; intros st; unfold randint;
    destruct (b <? a)%Z; cbn; congruence.
Qed.

Lemma fatal_write f t : sat fatal_on_failure (write_res_file f t).
Proof. apply fatal_quiet; [reflexivity | discriminate]. Qed.

Lemma fatal_set_drives l : sat fatal_on_failure (set_drives l).
Proof. apply fatal_quiet; [reflexivity | discriminate]. Qed.

Lemma fatal_set_lib_dict d : sat fatal_on_failure (set_lib_dict d).
Proof. apply fatal_quiet; [reflexivity | discriminate]. Qed.

Lemma fatal_set_archive_device a : sat fatal_on_failure (set_archive_device a).
Proof. apply fatal_quiet; [reflexivity | discriminate]. Qed.

Lemma fatal_get : sat fatal_on_failure get.
Proof. apply sat_get, fatal_refl. Qed.

Lemma fatal_for_each {A} (l : list A) (body : A -> M unit) :
  (forall x, sat fatal_on_failure (body x)) ->
  sat fatal_on_failure (for_each l body).
Proof.
  intros Hb.
  apply sat_for_each; first [exact fatal_refl | exact fatal_trans | assumption].
Qed.

Lemma fatal_map_m {A B} (f : A -> M B) (l : list A) :
  (forall x, sat fatal_on_failure (f x)) -> sat fatal_on_failure (map_m f l).
Proof.
  intros Hf.
  apply sat_map_m; first [exact fatal_refl | exact fatal_trans | assumption].
Qed.


Ltac fatal_step :=
  first
    [ apply fatal_checked; intros
    | apply fatal_checked_last
    | apply fatal_unchecked; solve [now left | now right]
    | apply fatal_bind; [| intros]
    | apply fatal_ret
    | apply fatal_raise
    | apply fatal_get
    | apply fatal_sleep
    | apply fatal_randint
    | apply fatal_write
    | apply fatal_set_drives
    | apply fatal_set_lib_dict
    | apply fatal_set_archive_device
    | apply fatal_for_each; intros
    | apply fatal_map_m; intros
    | assumption
    | match goal with
      | |- sat _ (if ?b then _ else _) => destruct b
      | |- sat _ (match ?x with _ => _ end) => destruct x
      end ].

Ltac fatal := repeat fatal_step.

Lemma fatal_get_uname : sat fatal_on_failure get_uname.
Proof. unfold get_uname. fatal. Qed.

Lemma fatal_get_ready_str uname : sat fatal_on_failure (get_ready_str uname).
Proof. unfold get_ready_str. fatal. Qed.

Lemma fatal_lib_or_drv_status c : sat fatal_on_failure (lib_or_drv_status c).
Proof. unfold lib_or_drv_status. fatal. Qed.

Lemma fatal_unload lib slot i : sat fatal_on_failure (unload lib slot i).
Proof. unfold unload. fatal. Qed.

Lemma fatal_loaded lib i : sat fatal_on_failure (loaded lib i).
Proof.
  unfold loaded. apply fatal_bind; [apply fatal_lib_or_drv_status | intros].
  fatal.
Qed.

Lemma fatal_get_random_slot lib : sat fatal_on_failure (get_random_slot lib).
Proof.
  unfold get_random_slot.
  apply fatal_bind; [apply fatal_lib_or_drv_status | intros].
  fatal.
Qed.

Lemma fatal_inventory : sat fatal_on_failure inventory.
Proof. unfold inventory, byid_node. fatal. Qed.

Lemma fatal_send_offline : sat fatal_on_failure send_offline.
Proof. unfold send_offline. fatal. Qed.

Lemma fatal_unload_all libs : sat fatal_on_failure (unload_all libs).
Proof.
  unfold unload_all, unload_library, while_below, unload_drive.
  apply fatal_for_each; intros lib.
  apply fatal_bind; [apply fatal_lib_or_drv_status | intros].
  apply fatal_for_each; intros i.
  apply fatal_bind; [apply fatal_loaded | intros [slot vol]].
  destruct (negb (slot =? "0")%string); [apply fatal_unload | apply fatal_ret].
Qed.

Lemma fatal_test_byid_nodes ready lib slot i nodes :
  sat fatal_on_failure (test_byid_nodes ready lib slot i nodes).
Proof.
  induction nodes as [|d nodes IH]; cbn [test_byid_nodes].
  - apply fatal_ret.
  - apply fatal_bind; [apply fatal_lib_or_drv_status | intros r].
    destruct (Re.search (ready_re ready) (stdout r)); [| exact IH].
    repeat (apply fatal_bind;
            [first [apply fatal_get | apply fatal_set_lib_dict
                   | apply fatal_set_drives] | intros]).
    apply fatal_unload.
Qed.

Lemma fatal_identify_all ready libs : sat fatal_on_failure (identify_all ready libs).
Proof.
  unfold identify_all, identify_library, while_below, identify_drive_index.
  apply fatal_for_each; intros lib.
  apply fatal_bind; [apply fatal_lib_or_drv_status | intros].
  destruct (mem lib (libs_to_skip cfg)); [apply fatal_ret|].
  apply fatal_for_each; intros i.
  apply fatal_bind; [apply fatal_get_random_slot | intros [slot vol]].
  apply fatal_checked; intros.
  apply fatal_bind; [apply fatal_sleep | intros].
  apply fatal_bind; [apply fatal_get | intros].
  apply fatal_test_byid_nodes.
Qed.

Lemma fatal_report : sat fatal_on_failure report.
Proof. unfold report. fatal. Qed.

Lemma fatal_generate_all : sat fatal_on_failure generate_all.
Proof.
  unfold generate_all, generate_library.
  apply fatal_bind; [apply fatal_get | intros st0].
  apply fatal_for_each; intros [lib entries]. cbn [fst snd].
  apply fatal_bind; [apply fatal_write | intros].
  apply fatal_bind; [| intros; apply fatal_write].
  generalize (seq 0 (length entries)) as devs. generalize "" as acc.
  intros acc devs; revert acc.
  induction devs as [|dev devs IH]; intros acc; cbn [generate_devices].
  - apply fatal_ret.
  - apply fatal_bind; [| intros; apply IH].
    unfold generate_device, pick_archive_device. fatal.
Qed.

Lemma fatal_script : sat fatal_on_failure script.
Proof.
  unfold script.
  apply fatal_bind; [apply fatal_get_uname | intros uname].
  apply fatal_bind; [apply fatal_get_ready_str | intros ready].
  apply fatal_bind; [apply fatal_inventory | intros libs].
  apply fatal_bind; [apply fatal_send_offline | intros].
  apply fatal_bind; [apply fatal_unload_all | intros].
  apply fatal_bind; [apply fatal_identify_all | intros].
  apply fatal_bind; [apply fatal_report | intros].
  apply fatal_generate_all.
Qed.

Lemma erase_exit {A} (o : outcome A) c : erase o = Exit c -> o = Exit c.
Proof. destruct o; cbn; congruence. Qed.

(** C4.  Whatever the hardware answers, a command of the run that comes
    back with a non-zero exit code (any command but the two [mt
    --version] probes of [get_ready_str], so every command of the
    inventory, of the unloading of the drives and of the loading) is the
    last command of the run, and the run exits with that exit code. *)
Theorem nonzero_exit_is_fatal (w : world) pre c r post :
  rev (events (snd (script (initial w)))) = (pre ++ Ran c r :: post)%list ->
  returncode r <> 0%Z ->
  c <> MtVersionMtSt -> c <> MtVersionCpio ->
  post = [] /\ fst (script (initial w)) = Exit (returncode r).
Proof.
  intros Hev Hrc Hc1 Hc2.
  destruct (fatal_script (initial w)) as (new & Hnew & Hout).
  cbn [initial events] in Hnew. rewrite app_nil_r in Hnew.
  rewrite Hnew in Hev.
  assert (Hdirty : ~ clean (Ran c r)).
  { intros [H|[H|H]]; contradiction. }
  assert (Hin : In (Ran c r) new).
  { apply in_rev. rewrite Hev. apply in_elt. }
  destruct (erase (fst (script (initial w)))) as [[]|code|e] eqn:Eo.
  - exfalso. apply Hdirty. rewrite Forall_forall in Hout. now apply Hout.
  - destruct Hout as (Hcode & c0 & r0 & older & -> & Hr0 & Holder).
    apply erase_exit in Eo. rewrite Eo.
    cbn [rev] in Hev.
    destruct post as [|x post] using rev_ind.
    + apply app_inj_tail in Hev. destruct Hev as [_ Hev].
      inversion Hev; subst. split; reflexivity.
    + exfalso. apply Hdirty.
      rewrite app_comm_cons, app_assoc in Hev.
      apply app_inj_tail in Hev. destruct Hev as [Hev _].
      rewrite Forall_forall in Holder. apply Holder.
      apply in_rev. rewrite Hev. apply in_elt.
  - exfalso. apply Hdirty. rewrite Forall_forall in Hout. now apply Hout.
Qed.


(** *** A library on the skip list *)

Section Spared.

Variable P : event -> Prop.
Variable L : string.

Lemma spares_refl st : spares P L st (Ok tt) st.
Proof. split; [exists []; split; [reflexivity | constructor] | reflexivity]. Qed.

Lemma spares_trans st1 st2 st3 o :
  spares P L st1 (Ok tt) st2 -> spares P L st2 o st3 -> spares P L st1 o st3.
Proof.
  intros [(n1 & E1 & H1) D1] [(n2 & E2 & H2) D2]. split.
  - exists (n2 ++ n1)%list. split; [now rewrite E2, E1, app_assoc|].
    apply Forall_app; split; assumption.
  - now rewrite D2.
Qed.

Lemma spares_bind {A B} (m : M A) (f : A -> M B) :
  sat (spares P L) m -> (forall a, sat (spares P L) (f a)) ->
  sat (spares P L) (bind m f).
Proof.
  intros Hm Hf.
  apply sat_bind; first [exact spares_refl | exact spares_trans | assumption].
Qed.

Lemma spares_ret {A} (a : A) : sat (spares P L) (ret a).
Proof. apply sat_ret, spares_refl. Qed.

Lemma spares_get : sat (spares P L) get.
Proof. apply sat_get, spares_refl. Qed.

Lemma spares_for_each {A} (l : list A) (body : A -> M unit) :
  (forall x, sat (spares P L) (body x)) -> sat (spares P L) (for_each l body).
Proof.
  intros Hb.
  apply sat_for_each; first [exact spares_refl | exact spares_trans | assumption].
Qed.

Lemma spares_map_m {A B} (f : A -> M B) (l : list A) :
  (forall x, sat (spares P L) (f x)) -> sat (spares P L) (map_m f l).
Proof.
  intros Hf.
  apply sat_map_m; first [exact spares_refl | exact spares_trans | assumption].
Qed.

Lemma spares_quiet {A} (m : M A) :
  (forall st, events (snd (m st)) = events st) ->
  (forall st, lib_dict (snd (m st)) = lib_dict st) ->
  sat (spares P L) m.
Proof.
  intros He Hd st. split.
  - exists []. split; [apply He | constructor].
  - now rewrite Hd.
Qed.

Lemma spares_shell (c : command) :
  (forall r, P (Ran c r)) -> sat (spares P L) (get_shell_result c).
Proof.
  intros Hc st. unfold get_shell_result.
  destruct (run_shell (hw st) (shell_text c)) as [r w]. cbn. split.
  - exists [Ran c r]. split; [reflexivity | repeat constructor; apply Hc].
  - reflexivity.
Qed.

Lemma spares_chk r : sat (spares P L) (chk_cmd_result r).
Proof.
  apply spares_quiet; intros st; unfold chk_cmd_result;
    destruct (returncode r =? 0)%Z; reflexivity.
Qed.

Lemma spares_sleep n : P (Slept n) -> sat (spares P L) (sleep n).
Proof.
  intros Hp st. split; [| reflexivity].
  exists [Slept n]. split; [reflexivity | repeat constructor; exact Hp].
Qed.

Lemma spares_raise {A} e : sat (spares P L) (@raise A e).
Proof. apply spares_quiet; reflexivity. Qed.

Lemma spares_randint a b : sat (spares P L) (randint a b).
Proof.
  apply spares_quiet; intros st; unfold randint; destruct (b <? a)%Z;
    reflexivity.
Qed.

Lemma spares_write f t : sat (spares P L) (write_res_file f t).
Proof. apply spares_quiet; reflexivity. Qed.

Lemma spares_set_drives l : sat (spares P L) (set_drives l).
Proof. apply spares_quiet; reflexivity. Qed.

Lemma spares_set_archive_device a : sat (spares P L) (set_archive_device a).
Proof. apply spares_quiet; reflexivity. Qed.

Lemma dict_get_append_other d lib e :
  lib <> L -> dict_get (dict_append d lib e) L = dict_get d L.
Proof.
  intros Hne. induction d as [|[k v] d IH]; cbn.
  - destruct (String.eqb_spec L lib); [congruence | reflexivity].
  - destruct (String.eqb_spec lib k) as [->|Hk]; cbn.
    + destruct (String.eqb_spec L k); [congruence | reflexivity].
    + now rewrite IH.
Qed.

(** Recording an entry for another library. *)
Lemma spares_record lib e :
  lib <> L ->
  sat (spares P L)
      (bind get (fun st => set_lib_dict (dict_append (lib_dict st) lib e))).
Proof.
  intros Hne st. split.
  - exists []. split; [reflexivity | constructor].
  - cbn. now apply dict_get_append_other.
Qed.

End Spared.

Lemma spares_weaken (P Q : event -> Prop) L {A} (m : M A) :
  (forall e, P e -> Q e) -> sat (spares P L) m -> sat (spares Q L) m.
Proof.
  intros HPQ Hm st. destruct (Hm st) as [(new & E & H) D]. split; [|exact D].
  exists new. split; [exact E|]. eapply Forall_impl; eauto.
Qed.

Ltac spares_step :=
  first
    [ apply spares_bind; [| intros]
    | apply spares_ret
    | apply spares_raise
    | apply spares_get
    | apply spares_chk
    | apply spares_shell; intros; exact I
    | apply spares_sleep; exact I
    | apply spares_randint
    | apply spares_write
    | apply spares_set_drives
    | apply spares_set_archive_device
    | apply spares_for_each; intros
    | apply spares_map_m; intros
    | assumption
    | match goal with
      | |- sat _ (if ?b then _ else _) => destruct b
      | |- sat _ (match ?x with _ => _ end) => destruct x
      end ].

Ltac spares_auto := repeat spares_step.

Lemma spares_status P L c :
  (forall r, P (Ran c r)) -> sat (spares P L) (lib_or_drv_status c).
Proof.
  intros Hc. unfold lib_or_drv_status.
  apply spares_bind; [now apply spares_shell | intros]. spares_auto.
Qed.

Lemma spares_unload P L lib slot i :
  (forall r, P (Ran (MtxUnload lib slot i) r)) ->
  sat (spares P L) (unload lib slot i).
Proof.
  intros Hc. unfold unload.
  apply spares_bind; [now apply spares_shell | intros]. spares_auto.
Qed.

Lemma spares_get_random_slot P L lib :
  (forall r, P (Ran (MtxFullSlots lib) r)) ->
  sat (spares P L) (get_random_slot lib).
Proof.
  intros Hc. unfold get_random_slot.
  apply spares_bind; [now apply spares_status | intros]. spares_auto.
Qed.

Lemma spares_test_byid_nodes L ready lib slot i nodes :
  lib <> L ->
  sat (spares (no_load_unload L) L) (test_byid_nodes ready lib slot i nodes).
Proof.
  intros Hne. induction nodes as [|d nodes IH]; cbn [test_byid_nodes].
  - apply spares_ret.
  - apply spares_bind; [apply spares_status; intros; exact I | intros r].
    destruct (Re.search (ready_re ready) (stdout r)); [| exact IH].
    apply (@spares_bind _ _ _ _ (bind get (fun st =>
             set_lib_dict (dict_append (lib_dict st) lib (d, i))))
             (fun _ => _)).
    + now apply spares_record.
    + intros _. apply spares_bind; [apply spares_get | intros st1].
      apply spares_bind; [apply spares_set_drives | intros].
      apply spares_unload. intros; exact Hne.
Qed.


Lemma mem_true_iff x l : mem x l = true <-> In x l.
Proof.
  unfold mem. rewrite existsb_exists. split.
  - intros (y & Hy & E). apply String.eqb_eq in E. now subst.
  - intros H. exists x. split; [exact H | apply String.eqb_refl].
Qed.

Lemma spares_identify_all L ready libs :
  mem L (libs_to_skip cfg) = true ->
  sat (spares (no_load_unload L) L) (identify_all ready libs).
Proof.
  intros Hskip. unfold identify_all, identify_library, while_below.
  apply spares_for_each; intros lib.
  apply spares_bind; [apply spares_status; intros; exact I | intros r].
  destruct (String.eqb_spec lib L) as [->|Hne].
  - rewrite Hskip. apply spares_ret.
  - destruct (mem lib (libs_to_skip cfg)); [apply spares_ret|].
    apply spares_for_each; intros i. unfold identify_drive_index.
    apply spares_bind;
      [apply spares_get_random_slot; intros; exact I | intros [slot vol]].
    apply spares_bind; [apply spares_shell; intros; exact Hne | intros].
    apply spares_bind; [apply spares_chk | intros].
    apply spares_bind; [apply spares_sleep; exact I | intros].
    apply spares_bind; [apply spares_get | intros st1].
    now apply spares_test_byid_nodes.
Qed.

Lemma spares_script L :
  mem L (libs_to_skip cfg) = true ->
  sat (spares (no_load L) L) script.
Proof.
  intros Hskip. unfold script.
  apply spares_bind; [unfold get_uname; spares_auto | intros uname].
  apply spares_bind; [unfold get_ready_str; spares_auto | intros ready].
  apply spares_bind; [unfold inventory, byid_node; spares_auto | intros libs].
  apply spares_bind; [unfold send_offline; spares_auto | intros].
  apply spares_bind.
  { unfold unload_all, unload_library, while_below, unload_drive.
    apply spares_for_each; intros lib.
    apply spares_bind; [apply spares_status; intros; exact I | intros].
    apply spares_for_each; intros i.
    apply spares_bind.
    - unfold loaded.
      apply spares_bind; [apply spares_status; intros; exact I | intros].
      spares_auto.
    - intros [slot vol].
      destruct (negb (slot =? "0")%string); [| apply spares_ret].
      apply spares_unload; intros; exact I. }
  intros _. apply spares_bind.
  { apply spares_weaken with (P := no_load_unload L);
      [| now apply spares_identify_all].
    intros [[] r|n]; cbn; auto. }
  intros _. apply spares_bind; [unfold report; spares_auto | intros].
  unfold generate_all, generate_library.
  apply spares_bind; [apply spares_get | intros st0].
  apply spares_for_each; intros [lib entries]. cbn [fst snd].
  apply spares_bind; [apply spares_write | intros].
  apply spares_bind; [| intros; apply spares_write].
  generalize (seq 0 (length entries)) as devs. generalize "" as acc.
  intros acc devs; revert acc.
  induction devs as [|dev devs IH]; intros acc; cbn [generate_devices].
  - apply spares_ret.
  - apply spares_bind; [| intros; apply IH].
    unfold generate_device, pick_archive_device. spares_auto.
Qed.

(** C3, as amended.  For a library [L] on the skip list: in the whole
    run no load is ever issued against [L] and [lib_dict] ends without
    entries for [L]; and the discovery phase issues neither a load nor
    an unload against [L] and leaves the entries of [L] alone.  (The
    phase that unloads the drives before the discovery does not look at
    the skip list.) *)
Theorem skipped_library_spared L :
  mem L (libs_to_skip cfg) = true ->
  (forall w,
      (forall slot i r,
          ~ In (Ran (MtxLoad L slot i) r) (events (snd (script (initial w)))))
      /\ dict_get (lib_dict (snd (script (initial w)))) L = None)
  /\ (forall ready libs st,
         exists new,
           events (snd (identify_all ready libs st)) = (new ++ events st)%list
           /\ (forall slot i r,
                  ~ In (Ran (MtxLoad L slot i) r) new
                  /\ ~ In (Ran (MtxUnload L slot i) r) new)
           /\ dict_get (lib_dict (snd (identify_all ready libs st))) L
              = dict_get (lib_dict st) L).
Proof.
  intros Hskip. split.
  - intros w. destruct (@spares_script L Hskip (initial w)) as [(new & E & H) D].
    cbn [initial events lib_dict dict_get] in E, D.
    rewrite app_nil_r in E. rewrite E. split; [| exact D].
    intros slot i r Hin. rewrite Forall_forall in H.
    apply H in Hin. cbn in Hin. congruence.
  - intros ready libs st.
    destruct (@spares_identify_all L ready libs Hskip st) as [(new & E & H) D].
    exists new. split; [exact E|]. split; [| exact D].
    rewrite Forall_forall in H.
    intros slot i r. split; intros Hin; apply H in Hin; cbn in Hin; congruence.
Qed.


(** *** The resource generator *)

Lemma untouched_refl st : hardware_untouched st (Ok tt) st.
Proof. repeat split. Qed.

Lemma untouched_trans st1 st2 st3 o :
  hardware_untouched st1 (Ok tt) st2 -> hardware_untouched st2 o st3 ->
  hardware_untouched st1 o st3.
Proof.
  unfold hardware_untouched. intros (A1 & A2 & A3 & A4 & A5) (B1 & B2 & B3 & B4 & B5).
  repeat split; congruence.
Qed.

Lemma untouched_generate_all : sat hardware_untouched generate_all.
Proof.
  assert (Hq : forall A (m : M A),
             (forall st, hardware_untouched st (Ok tt) (snd (m st))) ->
             sat hardware_untouched m).
  { intros A m H st. exact (H st). }
  assert (Hbind : forall A B (m : M A) (f : A -> M B),
             sat hardware_untouched m ->
             (forall a, sat hardware_untouched (f a)) ->
             sat hardware_untouched (bind m f)).
  { intros. apply sat_bind; first [exact untouched_trans | assumption]. }
  assert (Hfor : forall A (l : list A) (body : A -> M unit),
             (forall x, sat hardware_untouched (body x)) ->
             sat hardware_untouched (for_each l body)).
  { intros.
    apply sat_for_each;
      first [exact untouched_refl | exact untouched_trans | assumption]. }
  unfold generate_all, generate_library.
  apply Hbind; [apply Hq; intros; apply untouched_refl | intros st0].
  apply Hfor; intros [lib entries]. cbn [fst snd].
  apply Hbind; [apply Hq; intros; repeat split | intros].
  apply Hbind; [| intros; apply Hq; intros; repeat split].
  generalize (seq 0 (length entries)) as devs. generalize "" as acc.
  intros acc devs; revert acc.
  induction devs as [|dev devs IH]; intros acc; cbn [generate_devices].
  - apply Hq; intros; apply untouched_refl.
  - apply Hbind; [| intros; apply IH].
    apply Hq. intros st. rewrite generate_device_spec.
    destruct (or_else _ _); repeat split.
Qed.

Lemma covers_entry entries dev :
  covers entries = true -> dev < length entries ->
  entry_for entries dev <> None.
Proof.
  unfold covers. intros Hc Hlt He.
  rewrite forallb_forall in Hc.
  assert (Hin : In dev (seq 0 (length entries))) by (apply in_seq; lia).
  apply Hc in Hin. apply existsb_exists in Hin.
  destruct Hin as ([a j] & Hin & Ej). cbn in Ej.
  apply Nat.eqb_eq in Ej. subst j.
  exact (entry_for_none _ _ He a Hin).
Qed.

Lemma covers_archive_at entries cur cur' dev :
  covers entries = true -> dev < length entries ->
  archive_at cur entries dev = archive_at cur' entries dev.
Proof.
  intros Hc Hlt. unfold archive_at. rewrite !carried_before.
  pose proof (covers_entry entries Hc Hlt) as He.
  destruct (entry_for entries dev); [reflexivity | contradiction].
Qed.

Lemma generate_library_covered lib entries st :
  covers entries = true ->
  exists a,
    generate_library lib entries st
    = (Ok tt, rendered st a (library_files lib entries ++ files st)%list).
Proof.
  intros Hc. exists (before (archive_device st) entries (length entries)).
  unfold generate_library. unfold bind at 1. unfold write_res_file at 1.
  unfold bind at 1.
  rewrite generate_devices_from with (cur := archive_device st).
  - assert (E : device_files lib (archive_device st) entries 0 (length entries)
                = device_files lib None entries 0 (length entries)).
    { unfold device_files. apply map_ext_in. intros dev Hin.
      apply in_seq in Hin. f_equal. f_equal.
      apply covers_archive_at; [exact Hc | lia]. }
    unfold library_files. rewrite <- E.
    cbn [app]. rewrite <- app_assoc. reflexivity.
  - reflexivity.
  - intros Hn. rewrite carried_before.
    assert (H0 : entry_for entries 0 <> None)
      by (apply covers_entry; [exact Hc | lia]).
    destruct (entry_for entries 0); [discriminate | contradiction].
Qed.

Lemma generate_all_covered (d : dict) st :
  forallb (fun kv => covers (snd kv)) d = true ->
  exists a,
    for_each d (fun kv => generate_library (fst kv) (snd kv)) st
    = (Ok tt, rendered st a (all_files d ++ files st)%list).
Proof.
  revert st. induction d as [|[lib entries] d IH]; intros st Hc;
    cbn [for_each all_files].
  - exists (archive_device st). cbn. unfold ret. now rewrite rendered_id.
  - cbn [forallb snd] in Hc. apply andb_true_iff in Hc.
    destruct Hc as [Hl Hd].
    destruct (@generate_library_covered lib entries st Hl) as [a Ea].
    unfold bind. cbn [fst snd]. rewrite Ea.
    destruct (IH (rendered st a (library_files lib entries ++ files st)%list)
                 Hd) as [a' Ea'].
    exists a'. rewrite Ea'. cbn [rendered hw rand_calls events
                                  drives_byid_nodes_lst lib_dict files].
    now rewrite app_assoc.
Qed.

Lemma all_files_flat_map (d : dict) :
  all_files d
  = flat_map (fun kv => library_files (fst kv) (snd kv)) (rev d).
Proof.
  induction d as [|kv d IH]; [reflexivity|].
  cbn [rev all_files]. rewrite flat_map_app, IH. cbn [flat_map].
  now rewrite app_nil_r.
Qed.

(** C8, as amended.  The resource generator issues no command and
    touches neither the hardware nor the discovery result, and what it
    writes is a function of the libraries, of their entries and of the
    run's date stamp (a parameter of this development, present in every
    text through [created_by_str]): for a [lib_dict] in which every
    position of every library has an entry, it ends normally and adds,
    library by library, the files of that library and its entries, name
    by name and text by text, from any two states that agree on
    [lib_dict], whatever else they hold. *)
Theorem generate_all_deterministic st1 st2 :
  lib_dict st1 = lib_dict st2 ->
  forallb (fun kv => covers (snd kv)) (lib_dict st1) = true ->
  let new := flat_map (fun kv => library_files (fst kv) (snd kv))
                      (rev (lib_dict st1)) in
  (fst (generate_all st1) = Ok tt
   /\ files (snd (generate_all st1)) = (new ++ files st1)%list
   /\ hardware_untouched st1 (Ok tt) (snd (generate_all st1)))
  /\ (fst (generate_all st2) = Ok tt
      /\ files (snd (generate_all st2)) = (new ++ files st2)%list
      /\ hardware_untouched st2 (Ok tt) (snd (generate_all st2))).
Proof.
  intros Hd Hc new. subst new. rewrite <- all_files_flat_map.
  assert (H : forall st,
             lib_dict st = lib_dict st1 ->
             fst (generate_all st) = Ok tt
             /\ files (snd (generate_all st))
                = (all_files (lib_dict st1) ++ files st)%list
             /\ hardware_untouched st (Ok tt) (snd (generate_all st))).
  { intros st E. split; [| split; [| apply untouched_generate_all]];
      unfold generate_all, bind, get; cbn [fst snd]; rewrite E;
      destruct (generate_all_covered (lib_dict st1) st Hc) as [a Ea];
      now rewrite Ea. }
  split; apply H; [reflexivity | now symmetry].
Qed.


(** *** The discovery result *)

Lemma keeps_refl st : keeps_view st (Ok tt) st.
Proof. reflexivity. Qed.

Lemma keeps_trans st1 st2 st3 o :
  keeps_view st1 (Ok tt) st2 -> keeps_view st2 o st3 -> keeps_view st1 o st3.
Proof. unfold keeps_view. congruence. Qed.

Lemma keeps_bind {A B} (m : M A) (f : A -> M B) :
  sat keeps_view m -> (forall a, sat keeps_view (f a)) ->
  sat keeps_view (bind m f).
Proof.
  intros Hm Hf. apply sat_bind; first [exact keeps_trans | assumption].
Qed.

Lemma keeps_quiet {A} (m : M A) :
  (forall st, view_of (snd (m st)) = view_of st) -> sat keeps_view m.
Proof. intros H st. apply H. Qed.

Lemma keeps_shell c : sat keeps_view (get_shell_result c).
Proof.
  apply keeps_quiet. intros st. unfold get_shell_result.
  now destruct (run_shell (hw st) (shell_text c)).
Qed.

Lemma keeps_chk r : sat keeps_view (chk_cmd_result r).
Proof.
  apply keeps_quiet. intros st. unfold chk_cmd_result.
  now destruct (returncode r =? 0)%Z.
Qed.

Lemma keeps_randint a b : sat keeps_view (randint a b).
Proof.
  apply keeps_quiet. intros st. unfold randint. now destruct (b <? a)%Z.
Qed.

Ltac keeps_step :=
  first
    [ apply keeps_bind; [| intros]
    | apply keeps_shell
    | apply keeps_chk
    | apply keeps_randint
    | apply keeps_quiet; reflexivity
    | match goal with
      | |- sat _ (if ?b then _ else _) => destruct b
      | |- sat _ (match ?x with _ => _ end) => destruct x
      end ].

Lemma keeps_status c : sat keeps_view (lib_or_drv_status c).
Proof. unfold lib_or_drv_status. repeat keeps_step. Qed.

Lemma keeps_unload lib slot i : sat keeps_view (unload lib slot i).
Proof. unfold unload. repeat keeps_step. Qed.

Lemma keeps_get_random_slot lib : sat keeps_view (get_random_slot lib).
Proof.
  unfold get_random_slot.
  apply keeps_bind; [apply keeps_status | intros]. repeat keeps_step.
Qed.

Lemma test_byid_nodes_assigns ready lib slot i nodes st :
  incl nodes (drives_byid_nodes_lst st) ->
  assigns lib i (view_of st)
          (view_of (snd (test_byid_nodes ready lib slot i nodes st))).
Proof.
  revert st. induction nodes as [|x nodes IH]; intros st Hincl;
    cbn [test_byid_nodes].
  - constructor.
  - unfold bind at 1.
    pose proof (keeps_status (MtStatus x) st) as Hk.
    destruct (lib_or_drv_status (MtStatus x) st) as [[r|c|e] st1];
      cbn [fst snd erase] in *; unfold keeps_view in Hk;
      try (rewrite Hk; constructor).
    destruct (Re.search (ready_re ready) (stdout r)).
    + unfold bind at 1. unfold get at 1. unfold bind at 1.
      unfold set_lib_dict at 1. unfold bind at 1. unfold get at 1.
      unfold bind at 1. unfold set_drives at 1.
      cbn [drives_byid_nodes_lst lib_dict].
      match goal with
      | |- assigns _ _ _ (view_of (snd (unload _ _ _ ?s))) =>
          pose proof (keeps_unload lib slot i s) as Hu
      end.
      unfold keeps_view in Hu. rewrite Hu. unfold view_of in *. cbn.
      inversion Hk as [[Hd Hl]]. rewrite Hd, Hl.
      constructor. apply Hincl. now left.
    + rewrite <- Hk. apply IH. inversion Hk as [[Hd Hl]]. rewrite Hl.
      intros y Hy. apply Hincl. now right.
Qed.

Lemma identify_drive_index_assigns ready lib i st :
  assigns lib i (view_of st)
          (view_of (snd (identify_drive_index ready lib i st))).
Proof.
  unfold identify_drive_index. unfold bind at 1.
  pose proof (keeps_get_random_slot lib st) as H1.
  destruct (get_random_slot lib st) as [[[slot vol]|c|e] st1];
    cbn [fst snd erase] in *; unfold keeps_view in H1;
    try (rewrite H1; constructor).
  unfold bind at 1.
  pose proof (keeps_shell (MtxLoad lib slot i) st1) as H2.
  destruct (get_shell_result (MtxLoad lib slot i) st1) as [[r|c|e] st2];
    cbn [fst snd erase] in *; unfold keeps_view in H2;
    try (rewrite H2, H1; constructor).
  unfold bind at 1.
  pose proof (keeps_chk r st2) as H3.
  destruct (chk_cmd_result r st2) as [[[]|c|e] st3];
    cbn [fst snd erase] in *; unfold keeps_view in H3;
    try (rewrite H3, H2, H1; constructor).
  unfold bind at 1. unfold sleep at 1. unfold bind at 1. unfold get at 1.
  cbn [drives_byid_nodes_lst].
  rewrite <- H1, <- H2, <- H3.
  match goal with
  | |- assigns _ _ _ (view_of (snd (test_byid_nodes _ _ _ _ _ ?s))) =>
      change (view_of st3) with (view_of s)
  end.
  apply test_byid_nodes_assigns. cbn. apply incl_refl.
Qed.

Lemma trail_loop ready lib k n st :
  trail lib k (view_of st)
        (view_of (snd (for_each (seq k n) (identify_drive_index ready lib) st))).
Proof.
  revert k st. induction n as [|n IH]; intros k st; cbn [seq for_each].
  - constructor.
  - unfold bind.
    pose proof (identify_drive_index_assigns ready lib k st) as Ha.
    destruct (identify_drive_index ready lib k st) as [[[]|c|e] st1];
      cbn [fst snd] in *.
    + eapply trail_turn; [exact Ha | apply IH].
    + eapply trail_turn; [exact Ha | constructor].
    + eapply trail_turn; [exact Ha | constructor].
Qed.

Lemma identify_library_trail ready lib st :
  trail lib 0 (view_of st) (view_of (snd (identify_library ready lib st))).
Proof.
  unfold identify_library. unfold bind.
  pose proof (keeps_status (MtxStatus lib) st) as Hk.
  destruct (lib_or_drv_status (MtxStatus lib) st) as [[r|c|e] st1];
    cbn [fst snd erase] in *; unfold keeps_view in Hk;
    try (rewrite Hk; constructor).
  rewrite <- Hk.
  destruct (mem lib (libs_to_skip cfg)); [constructor|].
  apply trail_loop.
Qed.


Lemma ids_dict_append d lib x i :
  Permutation (ids (dict_append d lib (x, i))) (x :: ids d).
Proof.
  unfold ids. induction d as [|[k v] d IH]; cbn.
  - reflexivity.
  - destruct (String.eqb lib k); cbn.
    + rewrite !map_app. cbn.
      rewrite <- app_assoc. cbn.
      symmetry. apply Permutation_middle.
    + rewrite !map_app. rewrite IH.
      symmetry. apply Permutation_middle.
Qed.

Lemma remove_perm x l : In x l -> Permutation (x :: PyStr.remove x l) l.
Proof.
  induction l as [|y l IH]; cbn; [intros []|].
  intros Hin. destruct (String.eqb_spec x y) as [->|Hne]; [reflexivity|].
  destruct Hin as [->|Hin]; [congruence|].
  rewrite perm_swap. now rewrite IH.
Qed.

Lemma NoDup_snoc_lt (es : list entry) x i :
  NoDup (map snd es) -> Forall (fun e => snd e < i) es ->
  NoDup (map snd (es ++ [(x, i)])%list).
Proof.
  intros Hnd Hlt. rewrite map_app. cbn.
  apply NoDup_app; [exact Hnd | repeat constructor; intros [] |].
  intros j Hj [<-|[]]. apply in_map_iff in Hj. destruct Hj as (e & He & Hin).
  rewrite Forall_forall in Hlt. apply Hlt in Hin. lia.
Qed.

Lemma turning_entries done lib i d x :
  Forall (fun kv =>
            In (fst kv) (lib :: done) /\ NoDup (map snd (snd kv)) /\
            (fst kv = lib -> Forall (fun e => snd e < i) (snd kv))) d ->
  Forall (fun kv =>
            In (fst kv) (lib :: done) /\ NoDup (map snd (snd kv)) /\
            (fst kv = lib -> Forall (fun e => snd e < S i) (snd kv)))
         (dict_append d lib (x, i)).
Proof.
  assert (Hmono : forall es : list entry,
             Forall (fun e => snd e < i) es -> Forall (fun e => snd e < S i) es).
  { intros es H. eapply Forall_impl; [| exact H]. cbn. intros; lia. }
  induction d as [|[k v] d IH]; intros H; cbn.
  - repeat constructor; cbn; auto.
  - inversion H as [|? ? (Hk & Hnd & Hlt) Hrest]; subst. cbn in *.
    destruct (String.eqb_spec lib k) as [->|Hne].
    + constructor; cbn.
      * split; [exact Hk|]. split.
        -- apply NoDup_snoc_lt; auto.
        -- intros _. apply Forall_app. split; [auto|].
           repeat constructor.
      * eapply Forall_impl; [| exact Hrest]. cbn.
        intros kv (H1 & H2 & H3). auto.
    + constructor; cbn; [| now apply IH].
      split; [exact Hk|]. split; [exact Hnd|]. intros ->. congruence.
Qed.

Lemma turning_assigns done lib i v v' :
  turning done lib i v -> assigns lib i v v' -> turning done lib (S i) v'.
Proof.
  unfold turning. intros Hall Ha. destruct Ha as [v | d l x Hin]; cbn in *.
  - eapply Forall_impl; [| exact Hall]. cbn.
    intros kv (H1 & H2 & H3). repeat split; auto.
    intros E. eapply Forall_impl; [| exact (H3 E)]. cbn. intros; lia.
  - now apply turning_entries.
Qed.

Lemma turning_trail done lib i v v' :
  turning done lib i v -> trail lib i v v' -> exists j, turning done lib j v'.
Proof.
  intros Ht Htr. induction Htr as [i v | i v1 v2 v3 Ha Htr IH].
  - now exists i.
  - apply IH. eapply turning_assigns; eauto.
Qed.

Lemma settled_turning done lib v :
  ~ In lib done -> settled done v -> turning done lib 0 v.
Proof.
  unfold settled, turning. intros Hnew Hall.
  eapply Forall_impl; [| exact Hall]. cbn. intros kv [H1 H2].
  repeat split; auto. intros E. subst. contradiction.
Qed.

Lemma turning_settled done lib j v :
  turning done lib j v -> settled (lib :: done) v.
Proof.
  unfold settled, turning. intros Hall.
  eapply Forall_impl; [| exact Hall]. cbn. intros kv (H1 & H2 & _). auto.
Qed.

Lemma identify_all_settled ready libs done st :
  NoDup libs -> (forall lib, In lib libs -> ~ In lib done) ->
  settled done (view_of st) ->
  exists done', settled done' (view_of (snd (identify_all ready libs st))).
Proof.
  unfold identify_all. revert done st.
  induction libs as [|lib libs IH]; intros done st Hnd Hnew Hs;
    cbn [for_each].
  - now exists done.
  - inversion Hnd as [|? ? Hnotin Hnd']; subst.
    pose proof (identify_library_trail ready lib st) as Htr.
    apply (turning_trail (done := done)) in Htr;
      [| apply settled_turning; [apply Hnew; now left | exact Hs]].
    destruct Htr as [j Hj]. apply turning_settled in Hj.
    unfold bind.
    destruct (identify_library ready lib st) as [[[]|c|e] st1];
      cbn [fst snd] in *; try (now exists (lib :: done)).
    apply (IH (lib :: done)); [exact Hnd' | | exact Hj].
    intros l Hl [<-|Hd]; [contradiction|]. apply (Hnew l); [now right | exact Hd].
Qed.

Lemma NoDup_app_disjoint {A} (l1 l2 : list A) x :
  NoDup (l1 ++ l2)%list -> In x l1 -> ~ In x l2.
Proof.
  induction l1 as [|y l1 IH]; cbn; [intros _ []|].
  intros Hnd [->|Hin] H2; inversion Hnd as [|? ? Hy Hrest]; subst.
  - apply Hy, in_or_app. now right.
  - now apply IH.
Qed.

Lemma assigns_perm lib i v v' :
  assigns lib i v v' ->
  Permutation (ids (fst v') ++ snd v')%list (ids (fst v) ++ snd v)%list.
Proof.
  intros [v0 | d l x Hin]; [reflexivity|]. cbn [fst snd].
  rewrite ids_dict_append. cbn.
  rewrite <- (remove_perm x l Hin) at 2.
  apply Permutation_middle.
Qed.

Lemma trail_perm lib i v v' :
  trail lib i v v' ->
  Permutation (ids (fst v') ++ snd v')%list (ids (fst v) ++ snd v)%list.
Proof.
  induction 1 as [i v | i v1 v2 v3 Ha Htr IH]; [reflexivity|].
  rewrite IH. eapply assigns_perm; eauto.
Qed.

(** The identifiers with an entry and the remaining ones are, together
    and up to order, what they were before the discovery. *)
Lemma identify_all_perm ready libs st :
  Permutation
    (ids (lib_dict (snd (identify_all ready libs st)))
       ++ drives_byid_nodes_lst (snd (identify_all ready libs st)))%list
    (ids (lib_dict st) ++ drives_byid_nodes_lst st)%list.
Proof.
  unfold identify_all. revert st.
  induction libs as [|lib libs IH]; intros st; cbn [for_each];
    [reflexivity|].
  pose proof (trail_perm (identify_library_trail ready lib st)) as Hl.
  cbn [view_of fst snd] in Hl. unfold bind.
  destruct (identify_library ready lib st) as [[[]|c|e] st1];
    cbn [fst snd] in *; try exact Hl.
  rewrite IH. exact Hl.
Qed.

(** Where the inventory has found no library twice, the discovery,
    however it ends, leaves the indices within the entries of a library
    pairwise different; and where no drive identifier stands twice among
    the entries and the remaining drives beforehand, none does
    afterwards: no identifier has two entries, be it within one library
    or across libraries, and none with an entry is still among the
    remaining ones. *)
Theorem identify_all_unique ready libs st :
  let st' := snd (identify_all ready libs st) in
  (NoDup libs -> lib_dict st = [] ->
   forall lib es, In (lib, es) (lib_dict st') -> NoDup (map snd es))
  /\ (NoDup (ids (lib_dict st) ++ drives_byid_nodes_lst st)%list ->
      NoDup (ids (lib_dict st'))
      /\ forall x, In x (ids (lib_dict st')) ->
                   ~ In x (drives_byid_nodes_lst st')).
Proof.
  intros st'. split.
  - intros Hlibs Hempty.
    destruct (@identify_all_settled ready libs [] st Hlibs) as [done Hall].
    + intros lib _ [].
    + unfold settled. cbn. rewrite Hempty. constructor.
    + fold st' in Hall. unfold settled in Hall. cbn [view_of fst] in Hall.
      intros lib es Hin. rewrite Forall_forall in Hall.
      apply (Hall (lib, es) Hin).
  - intros Hnd.
    assert (Hnd' : NoDup (ids (lib_dict st')
                            ++ drives_byid_nodes_lst st')%list).
    { eapply Permutation_NoDup; [| exact Hnd].
      symmetry. apply identify_all_perm. }
    split.
    + apply NoDup_app_remove_r in Hnd'. exact Hnd'.
    + intros x Hx. exact (NoDup_app_disjoint _ _ x Hnd' Hx).
Qed.


(** *** Further properties: the start of the run *)

(** [get_ready_str] never ends the run through [sys.exit], whatever the
    exit code of its probe is.  On a system it knows it returns one of
    the five markers, having issued one probe on Linux and no command
    elsewhere; on any other system it dies of the undefined
    [print_opt_errors] before [usage] is reached, without a command. *)
Theorem get_ready_str_outcomes uname st :
  match fst (get_ready_str uname st) with
  | Ok marker =>
      In marker ready_markers /\ In uname known_unames /\
      (uname <> "Linux" -> snd (get_ready_str uname st) = st) /\
      (uname = "Linux" ->
       exists c r, unchecked c /\
                   events (snd (get_ready_str uname st)) = Ran c r :: events st)
  | Exit _ => False
  | Raise e =>
      e = NameError "print_opt_errors" /\ ~ In uname known_unames /\
      snd (get_ready_str uname st) = st
  end.
Proof.
  unfold get_ready_str, known_unames, ready_markers.
  destruct (String.eqb_spec uname "Linux") as [->|HL].
  - assert (Hprobe : forall c k,
               unchecked c ->
               let res := bind (get_shell_result c)
                               (fun result =>
                                  if (returncode result =? k)%Z
                                  then ret "drive status" else ret "ONLINE") st in
               match fst res with
               | Ok marker =>
                   In marker ready_markers /\ In "Linux" known_unames /\
                   ("Linux" <> "Linux" -> snd res = st) /\
                   ("Linux" = "Linux" ->
                    exists c r, unchecked c /\
                                events (snd res) = Ran c r :: events st)
               | Exit _ => False
               | Raise _ => False
               end).
    { intros c k Hc. unfold bind, get_shell_result.
      destruct (run_shell (hw st) (shell_text c)) as [r w1].
      unfold ready_markers, known_unames.
      destruct (returncode r =? k)%Z; cbn;
        (split; [tauto|]); (split; [tauto|]);
        (split; [congruence|]); intros _; exists c, r; split; auto. }
    destruct debian_version_file.
    + specialize (Hprobe MtVersionMtSt 1%Z (or_introl eq_refl)).
      cbn zeta in Hprobe.
      destruct (fst _) eqn:E in Hprobe; rewrite E; try contradiction.
      exact Hprobe.
    + specialize (Hprobe MtVersionCpio 0%Z (or_intror eq_refl)).
      cbn zeta in Hprobe.
      destruct (fst _) eqn:E in Hprobe; rewrite E; try contradiction.
      exact Hprobe.
  - destruct (String.eqb_spec uname "SunOS") as [->|HS];
      [cbn; repeat split; try tauto; intros; discriminate |].
    destruct (String.eqb_spec uname "FreeBSD") as [->|HF];
      [cbn; repeat split; try tauto; intros; discriminate |].
    destruct (String.eqb_spec uname "OpenBSD") as [->|HO];
      [cbn; repeat split; try tauto; intros; discriminate |].
    cbn. repeat split. intros [H|[H|[H|[H|[]]]]]; congruence.
Qed.

Lemma returns_ret {A} (Q : A -> state -> Prop) (a : A) :
  (forall st, Q a st) -> returns Q (ret a).
Proof. intros H st a' st' E. inversion E; subst. apply H. Qed.

Lemma returns_bind {A B} (P : A -> Prop) (Q : B -> state -> Prop)
      (m : M A) (f : A -> M B) :
  returns (fun a _ => P a) m -> (forall a, P a -> returns Q (f a)) ->
  returns Q (bind m f).
Proof.
  intros Hm Hf st b st' E. unfold bind in E.
  destruct (m st) as [[a|c|e] st1] eqn:Em; try discriminate.
  eapply Hf; [eapply Hm; exact Em | exact E].
Qed.

Lemma returns_any {A} (m : M A) : returns (fun _ _ => True) m.
Proof. intros st a st' _. exact I. Qed.

Lemma map_m_length {A B} (f : A -> M B) (l : list A) :
  returns (fun ys _ => length ys = length l) (map_m f l).
Proof.
  induction l as [|x l IH]; cbn [map_m].
  - apply returns_ret. reflexivity.
  - apply returns_bind with (P := fun _ => True); [apply returns_any|].
    intros y _. apply returns_bind with (P := fun ys => length ys = length l);
      [exact IH|].
    intros ys Hys. apply returns_ret. intros _. cbn. now rewrite Hys.
Qed.

Lemma split_nl_length (s : string) : 1 <= length (split_nl s).
Proof.
  unfold split_nl. generalize "" as cur.
  induction s as [|c s IH]; intros cur; cbn; [lia|].
  destruct (Ascii.eqb c nl); cbn; [lia | apply IH].
Qed.

(** An inventory that goes through never comes back empty-handed: even
    when [lsscsi] prints nothing, [split] yields one (empty) node name,
    so that there is at least one library name and one drive name. *)
Theorem inventory_never_empty st libs st' :
  inventory st = (Ok libs, st') ->
  libs <> [] /\ drives_byid_nodes_lst st' <> [].
Proof.
  revert st libs st'.
  change (returns (fun libs st' =>
                     libs <> [] /\ drives_byid_nodes_lst st' <> []) inventory).
  unfold inventory.
  apply returns_bind with (P := fun _ => True); [apply returns_any|].
  intros r1 _.
  apply returns_bind with (P := fun _ => True); [apply returns_any|].
  intros _ _.
  apply returns_bind with (P := fun _ => True); [apply returns_any|].
  intros r2 _.
  apply returns_bind with (P := fun _ => True); [apply returns_any|].
  intros _ _.
  apply returns_bind with (P := fun _ => True); [apply returns_any|].
  intros r3 _.
  apply returns_bind with (P := fun _ => True); [apply returns_any|].
  intros _ _.
  eapply returns_bind; [apply map_m_length|]. cbn beta. intros libs Hlibs.
  apply returns_bind with (P := fun _ => True); [apply returns_any|].
  intros r4 _.
  apply returns_bind with (P := fun _ => True); [apply returns_any|].
  intros _ _.
  eapply returns_bind; [apply map_m_length|]. cbn beta. intros drives Hdrives.
  intros st u st' E. unfold bind, set_drives, ret in E. inversion E; subst.
  cbn. split.
  - pose proof (split_nl_length (rstrip_nl (stdout r1))).
    destruct u; [cbn in Hlibs; lia | discriminate].
  - pose proof (split_nl_length (rstrip_nl (stdout r4))).
    destruct drives; [cbn in Hdrives; lia | discriminate].
Qed.


(** *** Further properties: slots, turns and phases *)

(** With a successful status pipeline and at least one full slot found,
    [get_random_slot] draws one random number and returns the slot and
    volume read off one of the lines found; the index drawn is always
    within the list. *)
Theorem get_random_slot_in_range lib st :
  let r := fst (run_shell (hw st) (shell_text (MtxFullSlots lib))) in
  let full_slots_lst := Re.findall full_slots_re (stdout r) in
  returncode r = 0%Z ->
  full_slots_lst <> [] ->
  exists line,
    In line full_slots_lst /\
    fst (get_random_slot lib st)
    = Ok (Re.sub slot_number_re [TGroup 1] line,
          rstrip (Re.sub volume_tag_re [TGroup 1] line)) /\
    rand_calls (snd (get_random_slot lib st)) = S (rand_calls st) /\
    events (snd (get_random_slot lib st))
    = Ran (MtxFullSlots lib) r :: events st.
Proof.
  intros r full Hrc Hne. subst r full.
  unfold get_random_slot, lib_or_drv_status, bind, get_shell_result.
  destruct (run_shell (hw st) (shell_text (MtxFullSlots lib))) as [r w].
  cbn [fst snd] in *. unfold chk_cmd_result. rewrite Hrc. cbn [Z.eqb ret stdout].
  set (l := Re.findall full_slots_re (stdout r)) in *.
  unfold randint. cbn [rand_calls].
  assert (Hlen : 0 < length l) by (destruct l; [congruence | cbn; lia]).
  destruct (Z.of_nat (length l) - 1 <? 0)%Z eqn:E; [apply Z.ltb_lt in E; lia|].
  set (k := (0 + Z.of_nat (random_tape (rand_calls st))
                 mod (Z.of_nat (length l) - 1 - 0 + 1))%Z).
  assert (Hk : (0 <= k < Z.of_nat (length l))%Z).
  { subst k. replace (Z.of_nat (length l) - 1 - 0 + 1)%Z
      with (Z.of_nat (length l)) by lia.
    rewrite Z.add_0_l. apply Z.mod_pos_bound. lia. }
  unfold py_index.
  destruct ((0 <=? k)%Z && (k <? Z.of_nat (length l))%Z) eqn:Eb.
  - destruct (nth_error l (Z.to_nat k)) as [line|] eqn:En.
    + exists line. split; [eapply nth_error_In; exact En|].
      cbn. repeat split.
    + exfalso. apply nth_error_None in En. lia.
  - exfalso. apply andb_false_iff in Eb.
    destruct Eb as [Eb|Eb]; [apply Z.leb_gt in Eb | apply Z.ltb_ge in Eb]; lia.
Qed.

(** A turn of the discovery loop in which none of the remaining drives
    becomes ready: it ends normally, without an entry, with every drive
    still remaining, and without an unload, so that the tape loaded for
    this turn stays in the drive. *)
Theorem identify_none_ready ready lib idx st slot vol st1 rl rs w2 :
  get_random_slot lib st = (Ok (slot, vol), st1) ->
  answers (hw st1)
          (MtxLoad lib slot idx :: map MtStatus (drives_byid_nodes_lst st1))
    = (rl :: rs, w2) ->
  returncode rl = 0%Z ->
  Forall (not_ready ready) rs ->
  identify_drive_index ready lib idx st =
  (Ok tt,
   {| hw := w2;
      rand_calls := rand_calls st1;
      events := (ran (map MtStatus (drives_byid_nodes_lst st1)) rs
                 ++ Slept (sleep_secs cfg)
                 :: Ran (MtxLoad lib slot idx) rl
                 :: events st1)%list;
      drives_byid_nodes_lst := drives_byid_nodes_lst st1;
      lib_dict := lib_dict st1;
      archive_device := archive_device st1;
      files := files st1 |}).
Proof.
  intros Hslot Hans Hload Hnot.
  rewrite answers_cons in Hans.
  destruct (run_shell (hw st1) (shell_text (MtxLoad lib slot idx)))
    as [rl' w1] eqn:El.
  cbn [fst snd] in Hans. inversion Hans as [[H1 H2 H3]]; subst rl'; clear Hans.
  assert (Ha : answers w1 (map MtStatus (drives_byid_nodes_lst st1)) = (rs, w2)).
  { rewrite <- H2, <- H3. now destruct (answers w1 _). }
  unfold identify_drive_index. unfold bind at 1. rewrite Hslot.
  unfold bind at 1. unfold get_shell_result at 1. rewrite El.
  unfold bind at 1. unfold chk_cmd_result at 1. rewrite Hload.
  cbn [Z.eqb ret]. unfold bind at 1. unfold sleep at 1.
  unfold bind at 1. unfold get at 1. cbn [drives_byid_nodes_lst].
  rewrite <- (app_nil_r (drives_byid_nodes_lst st1)) at 1.
  erewrite test_byid_nodes_skip; [| cbn [hw]; exact Ha | exact Hnot].
  rewrite ?H2, ?H3. reflexivity.
Qed.

Lemma keeps_loaded lib i : sat keeps_view (loaded lib i).
Proof.
  unfold loaded. apply keeps_bind; [apply keeps_status | intros].
  repeat keeps_step.
Qed.

(** The phase that unloads the drives before the discovery issues
    nothing but status queries and unloads, against libraries of its
    list only, and it leaves [lib_dict] and the list of drives as they
    are. *)
Theorem unload_all_only_unloads libs st :
  (exists new,
      events (snd (unload_all libs st)) = (new ++ events st)%list /\
      Forall (unloading_event libs) new)
  /\ lib_dict (snd (unload_all libs st)) = lib_dict st
  /\ drives_byid_nodes_lst (snd (unload_all libs st)) = drives_byid_nodes_lst st.
Proof.
  assert (Hev : sat (spares (unloading_event libs) "") (unload_all libs)).
  { unfold unload_all.
    assert (H : forall l, incl l libs ->
                sat (spares (unloading_event libs) "")
                    (for_each l unload_library)).
    { induction l as [|lib l IH]; intros Hincl; cbn [for_each].
      - apply spares_ret.
      - assert (Hlib : In lib libs) by (apply Hincl; now left).
        apply spares_bind;
          [| intros _; apply IH; intros x Hx; apply Hincl; now right].
        unfold unload_library, while_below, unload_drive.
        apply spares_bind; [apply spares_status; intros; exact Hlib | intros r].
        apply spares_for_each; intros i.
        apply spares_bind.
        + unfold loaded.
          apply spares_bind; [apply spares_status; intros; exact Hlib | intros].
          spares_auto.
        + intros [slot vol].
          destruct (negb (slot =? "0")%string); [| apply spares_ret].
          apply spares_unload; intros; exact Hlib. }
    apply H, incl_refl. }
  assert (Hkeep : sat keeps_view (unload_all libs)).
  { unfold unload_all, unload_library, while_below, unload_drive.
    apply sat_for_each; [exact keeps_refl | exact keeps_trans | intros lib].
    apply keeps_bind; [apply keeps_status | intros r].
    apply sat_for_each; [exact keeps_refl | exact keeps_trans | intros i].
    apply keeps_bind; [apply keeps_loaded | intros [slot vol]].
    destruct (negb (slot =? "0")%string);
      [apply keeps_unload | apply keeps_quiet; reflexivity]. }
  destruct (Hev st) as [Hnew _]. specialize (Hkeep st).
  unfold keeps_view, view_of in Hkeep. apply pair_equal_spec in Hkeep.
  split; [exact Hnew | exact Hkeep].
Qed.

(** The discovery neither loses nor invents a drive identifier, however
    it ends: the identifiers with an entry together with the remaining
    ones are, up to order, what they were before.  Starting without
    entries, every identifier with an entry comes from the list of
    drives, and there are as many entries and remaining drives as there
    were drives. *)
Theorem identify_all_conserves ready libs st :
  let st' := snd (identify_all ready libs st) in
  Permutation (ids (lib_dict st') ++ drives_byid_nodes_lst st')%list
              (ids (lib_dict st) ++ drives_byid_nodes_lst st)%list
  /\ (lib_dict st = [] ->
      (forall x, In x (ids (lib_dict st')) -> In x (drives_byid_nodes_lst st))
      /\ length (flat_map snd (lib_dict st'))
         + length (drives_byid_nodes_lst st')
         = length (drives_byid_nodes_lst st)).
Proof.
  intros st'.
  assert (Hperm : Permutation
                    (ids (lib_dict st') ++ drives_byid_nodes_lst st')%list
                    (ids (lib_dict st) ++ drives_byid_nodes_lst st)%list).
  { subst st'. apply identify_all_perm. }
  split; [exact Hperm|]. intros Hempty. rewrite Hempty in Hperm.
  cbn in Hperm. split.
  - intros x Hx. eapply Permutation_in; [exact Hperm|].
    apply in_or_app. now left.
  - apply Permutation_length in Hperm.
    rewrite length_app in Hperm. unfold ids in Hperm.
    now rewrite length_map in Hperm.
Qed.


(** *** Further properties: a library whose drives were all found *)

Lemma find_unique (l : list entry) a dev :
  NoDup (map snd l) -> In (a, dev) l ->
  find (fun e => (snd e =? dev)%nat) l = Some (a, dev).
Proof.
  induction l as [|[b j] l IH]; cbn; [intros _ []|].
  intros Hnd Hin. inversion Hnd as [|? ? Hnot Hnd']; subst.
  destruct (Nat.eqb_spec j dev) as [->|Hne].
  - destruct Hin as [E|Hin]; [congruence|].
    exfalso. apply Hnot. apply in_map_iff. now exists (a, dev).
  - destruct Hin as [E|Hin]; [inversion E; congruence | now apply IH].
Qed.

Lemma entry_for_unique entries a dev :
  NoDup (map snd entries) -> In (a, dev) entries ->
  entry_for entries dev = Some a.
Proof.
  intros Hnd Hin. unfold entry_for.
  assert (H : find (fun e : entry => (snd e =? dev)%nat) (rev entries)
              = Some (a, dev)).
  { apply find_unique.
    - rewrite map_rev.
      eapply Permutation_NoDup; [apply Permutation_rev | exact Hnd].
    - now apply -> in_rev. }
  unfold entry in *. now rewrite H.
Qed.

(** When the indices of the entries of a library are exactly
    [0 .. n - 1], each once, the resource generator does not fail for
    this library, whatever [archive_device] held before; it writes the
    director file, the device files of the positions [0 .. n - 1] and
    the autochanger file, in this order; and the device file of an
    index carries the identifier that has the entry with this index. *)
Theorem generate_library_complete lib entries st :
  Permutation (map snd entries) (seq 0 (length entries)) ->
  let n := length entries in
  let cur := archive_device st in
  generate_library lib entries st =
  (Ok tt,
   rendered st (before cur entries n)
     (autochanger_file lib n
      :: rev (device_files lib cur entries 0 n)
      ++ director_file lib n
      :: files st)%list)
  /\ (forall a dev, In (a, dev) entries ->
                    dev < n /\ archive_at cur entries dev = a).
Proof.
  intros Hperm n cur.
  assert (Hnd : NoDup (map snd entries)).
  { eapply Permutation_NoDup; [symmetry; exact Hperm | apply seq_NoDup]. }
  assert (Hat : forall a dev, In (a, dev) entries ->
                              dev < n /\ archive_at cur entries dev = a).
  { intros a dev Hin. split.
    - assert (Hs : In dev (seq 0 n)).
      { eapply Permutation_in; [exact Hperm|].
        apply in_map_iff. now exists (a, dev). }
      apply in_seq in Hs. lia.
    - unfold archive_at. rewrite carried_before.
      now rewrite (entry_for_unique entries a dev Hnd Hin). }
  split; [| exact Hat].
  unfold generate_library. unfold bind at 1. unfold write_res_file at 1.
  unfold bind at 1.
  rewrite generate_devices_from with (cur := cur).
  - reflexivity.
  - reflexivity.
  - intros Hn.
    assert (H0 : In 0 (map snd entries)).
    { eapply Permutation_in; [symmetry; exact Hperm|].
      apply in_seq. unfold entry in *. lia. }
    apply in_map_iff in H0. destruct H0 as ([a j] & Ej & Hin). cbn in Ej. subst j.
    rewrite carried_before, (entry_for_unique entries a 0 Hnd Hin). discriminate.
Qed.


(** *** Further properties: the order of the commands *)

Section Segments.

Variable G : list event -> Prop.
Hypothesis G_nil : G [].
Hypothesis G_app : forall a b, G a -> G b -> G (a ++ b)%list.

Lemma segment_refl st : segment G st (Ok tt) st.
Proof. exists []. split; [reflexivity | exact G_nil]. Qed.

Lemma segment_trans st1 st2 st3 o :
  segment G st1 (Ok tt) st2 -> segment G st2 o st3 -> segment G st1 o st3.
Proof.
  intros (n1 & E1 & H1) (n2 & E2 & H2). exists (n2 ++ n1)%list.
  split; [now rewrite E2, E1, app_assoc | now apply G_app].
Qed.

Lemma segment_bind {A B} (m : M A) (f : A -> M B) :
  sat (segment G) m -> (forall a, sat (segment G) (f a)) ->
  sat (segment G) (bind m f).
Proof.
  intros Hm Hf. apply sat_bind; first [exact segment_trans | assumption].
Qed.

Lemma segment_ret {A} (a : A) : sat (segment G) (ret a).
Proof. apply sat_ret, segment_refl. Qed.

Lemma segment_for_each {A} (l : list A) (body : A -> M unit) :
  (forall x, sat (segment G) (body x)) -> sat (segment G) (for_each l body).
Proof.
  intros Hb.
  apply sat_for_each;
    first [exact segment_refl | exact segment_trans | assumption].
Qed.

Lemma segment_map_m {A B} (f : A -> M B) (l : list A) :
  (forall x, sat (segment G) (f x)) -> sat (segment G) (map_m f l).
Proof.
  intros Hf.
  apply sat_map_m;
    first [exact segment_refl | exact segment_trans | assumption].
Qed.

Lemma segment_quiet {A} (m : M A) :
  (forall st, events (snd (m st)) = events st) -> sat (segment G) m.
Proof. intros He st. exists []. split; [apply He | exact G_nil]. Qed.

Lemma segment_shell (c : command) :
  (forall r, G [Ran c r]) -> sat (segment G) (get_shell_result c).
Proof.
  intros Hc st. unfold get_shell_result.
  destruct (run_shell (hw st) (shell_text c)) as [r w]. cbn.
  exists [Ran c r]. split; [reflexivity | apply Hc].
Qed.

Lemma segment_chk r : sat (segment G) (chk_cmd_result r).
Proof.
  apply segment_quiet. intros st. unfold chk_cmd_result.
  now destruct (returncode r =? 0)%Z.
Qed.

Lemma segment_randint a b : sat (segment G) (randint a b).
Proof.
  apply segment_quiet. intros st. unfold randint. now destruct (b <? a)%Z.
Qed.

Lemma segment_status c :
  (forall r, G [Ran c r]) -> sat (segment G) (lib_or_drv_status c).
Proof.
  intros Hc. unfold lib_or_drv_status.
  apply segment_bind; [now apply segment_shell | intros r].
  apply segment_bind; [apply segment_chk | intros; apply segment_ret].
Qed.

Lemma segment_unload lib slot i :
  (forall r, G [Ran (MtxUnload lib slot i) r]) ->
  sat (segment G) (unload lib slot i).
Proof.
  intros Hc. unfold unload.
  apply segment_bind; [now apply segment_shell | intros; apply segment_chk].
Qed.

Lemma segment_loaded lib i :
  (forall r, G [Ran (MtxStatus lib) r]) -> sat (segment G) (loaded lib i).
Proof.
  intros Hc. unfold loaded.
  apply segment_bind; [now apply segment_status | intros r].
  destruct (Re.search _ _); [| apply segment_ret].
  destruct (split _) as [|a [|b l]];
    first [apply segment_ret | apply segment_quiet; reflexivity].
Qed.

Lemma segment_get_random_slot lib :
  (forall r, G [Ran (MtxFullSlots lib) r]) ->
  sat (segment G) (get_random_slot lib).
Proof.
  intros Hc. unfold get_random_slot.
  apply segment_bind; [now apply segment_status | intros r].
  apply segment_bind; [apply segment_randint | intros k].
  destruct (py_index _ _);
    first [apply segment_ret | apply segment_quiet; reflexivity].
Qed.

(** The parts of the script around the discovery turns, given that the
    segments of single commands other than a drive status, and of the
    generator's steps, have [G]. *)
Hypothesis G_other :
  forall c r, (forall d, c <> MtStatus d) -> (forall l s i, c <> MtxLoad l s i) ->
              (forall l s i, c <> MtxUnload l s i) -> G [Ran c r].

Lemma segment_other c :
  (forall d, c <> MtStatus d) -> (forall l s i, c <> MtxLoad l s i) ->
  (forall l s i, c <> MtxUnload l s i) -> sat (segment G) (get_shell_result c).
Proof. intros H1 H2 H3. apply segment_shell. intros r. now apply G_other. Qed.

Lemma segment_get_uname : sat (segment G) get_uname.
Proof.
  unfold get_uname.
  apply segment_bind; [apply segment_other; discriminate | intros r].
  apply segment_bind; [apply segment_chk | intros; apply segment_ret].
Qed.

Lemma segment_get_ready_str uname : sat (segment G) (get_ready_str uname).
Proof.
  unfold get_ready_str.
  destruct (uname =? "Linux")%string.
  - destruct debian_version_file;
      (apply segment_bind; [apply segment_other; discriminate | intros r]);
      destruct (returncode r =? _)%Z; apply segment_ret.
  - repeat (match goal with
            | |- sat _ (if ?b then _ else _) => destruct b
            end; try apply segment_ret).
    apply segment_quiet; reflexivity.
Qed.

Lemma segment_inventory : sat (segment G) inventory.
Proof.
  unfold inventory, byid_node.
  repeat first
         [ apply segment_bind; [| intros]
         | apply segment_other; discriminate
         | apply segment_chk
         | apply segment_ret
         | apply segment_map_m; intros
         | apply segment_quiet; reflexivity
         | match goal with
           | |- sat _ (if ?b then _ else _) => destruct b
           | |- sat _ (match ?x with _ => _ end) => destruct x
           end ].
Qed.

Lemma segment_send_offline : sat (segment G) send_offline.
Proof.
  unfold send_offline. destruct (offline cfg); [| apply segment_ret].
  apply segment_bind; [apply segment_quiet; reflexivity | intros st0].
  apply segment_for_each. intros d.
  apply segment_bind;
    [apply segment_other; discriminate | intros; apply segment_chk].
Qed.

Lemma segment_unload_all libs :
  (forall lib slot i r, G [Ran (MtxUnload lib slot i) r]) ->
  sat (segment G) (unload_all libs).
Proof.
  intros Hu. unfold unload_all, unload_library, while_below, unload_drive.
  assert (Hs : forall lib r, G [Ran (MtxStatus lib) r]).
  { intros. apply G_other; discriminate. }
  apply segment_for_each; intros lib.
  apply segment_bind; [apply segment_status, Hs | intros r].
  apply segment_for_each; intros i.
  apply segment_bind; [apply segment_loaded, Hs | intros [slot vol]].
  destruct (negb (slot =? "0")%string);
    [apply segment_unload, Hu | apply segment_ret].
Qed.

Lemma segment_identify_all ready libs :
  (forall lib i, sat (segment G) (identify_drive_index ready lib i)) ->
  sat (segment G) (identify_all ready libs).
Proof.
  intros Ht. unfold identify_all, identify_library, while_below.
  apply segment_for_each; intros lib.
  apply segment_bind;
    [apply segment_status; intros; apply G_other; discriminate | intros r].
  destruct (mem lib (libs_to_skip cfg)); [apply segment_ret|].
  apply segment_for_each, Ht.
Qed.

Lemma segment_generate_all : sat (segment G) generate_all.
Proof.
  unfold generate_all, generate_library.
  apply segment_bind; [apply segment_quiet; reflexivity | intros st0].
  apply segment_for_each; intros [lib entries]. cbn [fst snd].
  apply segment_bind; [apply segment_quiet; reflexivity | intros].
  apply segment_bind; [| intros; apply segment_quiet; reflexivity].
  generalize (seq 0 (length entries)) as devs. generalize "" as acc.
  intros acc devs; revert acc.
  induction devs as [|dev devs IH]; intros acc; cbn [generate_devices].
  - apply segment_ret.
  - apply segment_bind; [| intros; apply IH].
    apply segment_quiet. intros st. rewrite generate_device_spec.
    now destruct (or_else _ _).
Qed.

Lemma segment_report : sat (segment G) report.
Proof.
  unfold report.
  apply segment_bind; [apply segment_quiet; reflexivity | intros st0].
  destruct (_ =? _)%nat; [apply segment_ret | apply segment_quiet; reflexivity].
Qed.

Lemma segment_script :
  (forall lib slot i r, G [Ran (MtxUnload lib slot i) r]) ->
  (forall ready lib i, sat (segment G) (identify_drive_index ready lib i)) ->
  sat (segment G) script.
Proof.
  intros Hu Ht. unfold script.
  apply segment_bind; [apply segment_get_uname | intros uname].
  apply segment_bind; [apply segment_get_ready_str | intros ready].
  apply segment_bind; [apply segment_inventory | intros libs].
  apply segment_bind; [apply segment_send_offline | intros].
  apply segment_bind; [apply segment_unload_all, Hu | intros].
  apply segment_bind; [apply segment_identify_all, Ht | intros].
  apply segment_bind; [apply segment_report | intros].
  apply segment_generate_all.
Qed.

End Segments.

Lemma paced_app n a b : paced n a -> paced n b -> paced n (a ++ b)%list.
Proof.
  induction a as [|e a IH]; intros Ha Hb; [exact Hb|].
  cbn [app paced] in *. destruct Ha as [He Ha]. split; [| now apply IH].
  destruct a as [|o a]; [| exact He].
  cbn [app]. destruct b as [|o b]; [exact He|].
  destruct e as [[] r|m]; cbn in *; tauto.
Qed.

Lemma paced_single n c r : (forall d, c <> MtStatus d) -> paced n [Ran c r].
Proof.
  intros Hc. cbn. split; [| exact I].
  destruct c; cbn; try tauto. intros _. now apply (Hc drive).
Qed.

Lemma paced_test_byid_nodes n ready lib slot i nodes st :
  exists new,
    events (snd (test_byid_nodes ready lib slot i nodes st))
    = (new ++ events st)%list /\
    forall older tail,
      scan_may_follow older -> paced n (older :: tail) ->
      paced n (new ++ older :: tail)%list.
Proof.
  revert st. induction nodes as [|d nodes IH]; intros st; cbn [test_byid_nodes].
  - exists []. split; [reflexivity | auto].
  - unfold bind at 1. unfold lib_or_drv_status, bind, get_shell_result.
    destruct (run_shell (hw st) (shell_text (MtStatus d))) as [r w].
    unfold chk_cmd_result.
    destruct (returncode r =? 0)%Z eqn:Erc; cbn [ret sys_exit fst snd].
    + apply Z.eqb_eq in Erc.
      destruct (Re.search (ready_re ready) (stdout r)).
      * unfold get, set_lib_dict, set_drives, unload, bind, get_shell_result.
        cbn [hw events].
        destruct (run_shell w (shell_text (MtxUnload lib slot i))) as [ru wu].
        exists [Ran (MtxUnload lib slot i) ru; Ran (MtStatus d) r].
        split; [unfold chk_cmd_result, ret, sys_exit; cbn;
                now destruct (returncode ru =? 0)%Z |].
        intros older tail Ho Hp. cbn [app paced]. split; [exact I|].
        split; [| exact Hp]. destruct older as [[] r0|m]; cbn in *; tauto.
      * match goal with
        | |- context [test_byid_nodes _ _ _ _ _ ?s] =>
            destruct (IH s) as (new & E & Hnew)
        end.
        exists (new ++ [Ran (MtStatus d) r])%list. cbn [events] in E.
        split; [now rewrite E, <- app_assoc |].
        intros older tail Ho Hp. rewrite <- app_assoc. cbn [app].
        apply Hnew; [exact Erc|]. cbn [paced]. split; [| exact Hp].
        destruct older as [[] r0|m]; cbn in *; tauto.
    + exists [Ran (MtStatus d) r]. split; [reflexivity|].
      intros older tail Ho Hp. cbn [app paced]. split; [| exact Hp].
      destruct older as [[] r0|m]; cbn in *; tauto.
Qed.

Lemma paced_identify_drive_index ready lib i :
  sat (segment (paced (sleep_secs cfg))) (identify_drive_index ready lib i).
Proof.
  unfold identify_drive_index.
  apply segment_bind; [exact (paced_app (sleep_secs cfg)) | |].
  { apply segment_get_random_slot;
      [exact I | exact (paced_app (sleep_secs cfg)) |].
    intros r. apply paced_single. discriminate. }
  intros [slot vol] st. unfold bind, get_shell_result.
  destruct (run_shell (hw st) (shell_text (MtxLoad lib slot i))) as [rl w].
  unfold chk_cmd_result.
  destruct (returncode rl =? 0)%Z eqn:Erc; cbn [ret sys_exit fst snd].
  - apply Z.eqb_eq in Erc. unfold sleep, get. cbn [drives_byid_nodes_lst].
    match goal with
    | |- context [test_byid_nodes _ _ _ _ ?ns ?s] =>
        destruct (paced_test_byid_nodes (sleep_secs cfg) ready lib slot i ns s)
          as (new & E & Hnew)
    end.
    exists (new ++ [Slept (sleep_secs cfg); Ran (MtxLoad lib slot i) rl])%list.
    cbn [events] in E. split; [cbn; cbn in E; now rewrite E, <- app_assoc |].
    apply Hnew; [exact I|]. cbn. tauto.
  - exists [Ran (MtxLoad lib slot i) rl]. split; [reflexivity|].
    apply paced_single. discriminate.
Qed.

Lemma paced_adjacent n l pre newer older post :
  paced n l -> l = (pre ++ newer :: older :: post)%list ->
  may_follow n older newer.
Proof.
  intros Hp ->. induction pre as [|e pre IH]; cbn [app paced] in Hp.
  - tauto.
  - apply IH. tauto.
Qed.

(** Whatever the hardware answers, the run never asks a drive for its
    status without having waited: in the events of the run, a drive
    status query comes directly after the settle delay or directly
    after the status query of another drive that left with exit code
    zero; and the settle delay is the configured one and comes directly
    after a load that left with exit code zero. *)
Theorem status_only_after_settle_delay (w : world) pre newer older post :
  rev (events (snd (script (initial w))))
  = (pre ++ older :: newer :: post)%list ->
  may_follow (sleep_secs cfg) older newer.
Proof.
  intros Hev.
  destruct (segment_script (G := paced (sleep_secs cfg)))
    with (st := initial w) as (new & E & Hp).
  - exact I.
  - exact (paced_app (sleep_secs cfg)).
  - intros c r H1 _ _. now apply paced_single.
  - intros lib slot i r. apply paced_single. discriminate.
  - apply paced_identify_drive_index.
  - cbn [initial events] in E. rewrite app_nil_r in E. rewrite E in Hev.
    apply (@paced_adjacent (sleep_secs cfg) new (rev post) newer older (rev pre) Hp).
    rewrite <- (rev_involutive new), Hev.
    rewrite rev_app_distr. cbn [rev]. rewrite <- !app_assoc. reflexivity.
Qed.


Lemma last_load_app a b t :
  last_load a = Some t -> last_load (a ++ b)%list = Some t.
Proof.
  induction a as [|e a IH]; [discriminate|].
  cbn [app last_load]. destruct e as [[] r|m]; auto.
Qed.

Lemma returned_app a b : returned a -> returned b -> returned (a ++ b)%list.
Proof.
  induction a as [|e a IH]; intros Ha Hb; [exact Hb|].
  cbn [app returned] in *. destruct Ha as [He Ha]. split; [| now apply IH].
  destruct e as [[] r|m]; try exact I. now apply last_load_app.
Qed.

Lemma returned_single c r :
  (forall l s i, c <> MtxUnload l s i) -> returned [Ran c r].
Proof.
  intros Hc. cbn. split; [| exact I].
  destruct c; try exact I. exfalso. eapply Hc. reflexivity.
Qed.

Lemma returned_test_byid_nodes ready lib slot i nodes st :
  exists new,
    events (snd (test_byid_nodes ready lib slot i nodes st))
    = (new ++ events st)%list /\
    forall tail,
      last_load tail = Some (lib, slot, i) -> returned tail ->
      returned (new ++ tail)%list.
Proof.
  revert st. induction nodes as [|d nodes IH]; intros st; cbn [test_byid_nodes].
  - exists []. split; [reflexivity | auto].
  - unfold bind at 1. unfold lib_or_drv_status, bind, get_shell_result.
    destruct (run_shell (hw st) (shell_text (MtStatus d))) as [r w].
    unfold chk_cmd_result.
    destruct (returncode r =? 0)%Z eqn:Erc; cbn [ret sys_exit fst snd].
    + destruct (Re.search (ready_re ready) (stdout r)).
      * unfold get, set_lib_dict, set_drives, unload, bind, get_shell_result.
        cbn [hw events].
        destruct (run_shell w (shell_text (MtxUnload lib slot i))) as [ru wu].
        exists [Ran (MtxUnload lib slot i) ru; Ran (MtStatus d) r].
        split; [unfold chk_cmd_result, ret, sys_exit; cbn;
                now destruct (returncode ru =? 0)%Z |].
        intros tail Hl Ht. cbn [app returned last_load]. tauto.
      * match goal with
        | |- context [test_byid_nodes _ _ _ _ _ ?s] =>
            destruct (IH s) as (new & E & Hnew)
        end.
        exists (new ++ [Ran (MtStatus d) r])%list. cbn [events] in E.
        split; [now rewrite E, <- app_assoc |].
        intros tail Hl Ht. rewrite <- app_assoc. cbn [app].
        apply Hnew; [exact Hl|]. cbn [returned]. tauto.
    + exists [Ran (MtStatus d) r]. split; [reflexivity|].
      intros tail Hl Ht. cbn [app returned]. tauto.
Qed.

Lemma returned_identify_drive_index ready lib i :
  sat (segment returned) (identify_drive_index ready lib i).
Proof.
  unfold identify_drive_index.
  apply segment_bind; [exact returned_app | |].
  { apply segment_get_random_slot; [exact I | exact returned_app |].
    intros r. apply returned_single. discriminate. }
  intros [slot vol] st. unfold bind, get_shell_result.
  destruct (run_shell (hw st) (shell_text (MtxLoad lib slot i))) as [rl w].
  unfold chk_cmd_result.
  destruct (returncode rl =? 0)%Z eqn:Erc; cbn [ret sys_exit fst snd].
  - unfold sleep, get. cbn [drives_byid_nodes_lst].
    match goal with
    | |- context [test_byid_nodes _ _ _ _ ?ns ?s] =>
        destruct (returned_test_byid_nodes ready lib slot i ns s)
          as (new & E & Hnew)
    end.
    exists (new ++ [Slept (sleep_secs cfg); Ran (MtxLoad lib slot i) rl])%list.
    cbn [events] in E. split; [cbn; cbn in E; now rewrite E, <- app_assoc |].
    apply Hnew; [reflexivity|]. cbn. tauto.
  - exists [Ran (MtxLoad lib slot i) rl]. split; [reflexivity|].
    apply returned_single. discriminate.
Qed.

(** Discovery puts every tape back where it took it from: in the events
    that the discovery loop adds, whatever the hardware answers, each
    unload names the library, the slot and the drive of the load issued
    most recently before it. *)
Theorem identify_all_returns_tapes ready libs st :
  exists new,
    events (snd (identify_all ready libs st)) = (new ++ events st)%list /\
    returned new.
Proof.
  apply (segment_identify_all (G := returned)).
  - exact I.
  - exact returned_app.
  - intros c r _ _ H. now apply returned_single.
  - apply returned_identify_drive_index.
Qed.

(** *** Further properties: the resource files of a run that fails *)

Lemma nothing_trans st1 st2 st3 o :
  writes_nothing st1 (Ok tt) st2 -> writes_nothing st2 o st3 ->
  writes_nothing st1 o st3.
Proof. unfold writes_nothing. congruence. Qed.

Lemma nothing_bind {A B} (m : M A) (f : A -> M B) :
  sat writes_nothing m -> (forall a, sat writes_nothing (f a)) ->
  sat writes_nothing (bind m f).
Proof.
  intros Hm Hf. apply sat_bind; first [exact nothing_trans | assumption].
Qed.

Lemma nothing_quiet {A} (m : M A) :
  (forall st, files (snd (m st)) = files st) -> sat writes_nothing m.
Proof. intros H st. apply H. Qed.

Lemma nothing_for_each {A} (l : list A) (body : A -> M unit) :
  (forall x, sat writes_nothing (body x)) ->
  sat writes_nothing (for_each l body).
Proof.
  intros Hb. apply sat_for_each;
    first [reflexivity | exact nothing_trans | assumption].
Qed.

Lemma nothing_map_m {A B} (f : A -> M B) (l : list A) :
  (forall x, sat writes_nothing (f x)) -> sat writes_nothing (map_m f l).
Proof.
  intros Hf. apply sat_map_m;
    first [reflexivity | exact nothing_trans | assumption].
Qed.

Lemma nothing_shell c : sat writes_nothing (get_shell_result c).
Proof.
  apply nothing_quiet. intros st. unfold get_shell_result.
  now destruct (run_shell (hw st) (shell_text c)).
Qed.

Lemma nothing_chk r : sat writes_nothing (chk_cmd_result r).
Proof.
  apply nothing_quiet. intros st. unfold chk_cmd_result.
  now destruct (returncode r =? 0)%Z.
Qed.

Lemma nothing_randint a b : sat writes_nothing (randint a b).
Proof.
  apply nothing_quiet. intros st. unfold randint. now destruct (b <? a)%Z.
Qed.

Ltac nothing_step :=
  first
    [ apply nothing_bind; [| intros]
    | apply nothing_shell
    | apply nothing_chk
    | apply nothing_randint
    | apply nothing_for_each; intros
    | apply nothing_map_m; intros
    | apply nothing_quiet; reflexivity
    | match goal with
      | |- sat _ (if ?b then _ else _) => destruct b
      | |- sat _ (match ?x with _ => _ end) => destruct x
      end ].

Lemma nothing_status c : sat writes_nothing (lib_or_drv_status c).
Proof. unfold lib_or_drv_status. repeat nothing_step. Qed.

Lemma nothing_unload lib slot i : sat writes_nothing (unload lib slot i).
Proof. unfold unload. repeat nothing_step. Qed.

Lemma nothing_loaded lib i : sat writes_nothing (loaded lib i).
Proof.
  unfold loaded. apply nothing_bind; [apply nothing_status | intros].
  repeat nothing_step.
Qed.

Lemma nothing_get_random_slot lib : sat writes_nothing (get_random_slot lib).
Proof.
  unfold get_random_slot.
  apply nothing_bind; [apply nothing_status | intros]. repeat nothing_step.
Qed.

Lemma nothing_get_uname : sat writes_nothing get_uname.
Proof. unfold get_uname. repeat nothing_step. Qed.

Lemma nothing_get_ready_str uname : sat writes_nothing (get_ready_str uname).
Proof. unfold get_ready_str. repeat nothing_step. Qed.

Lemma nothing_inventory : sat writes_nothing inventory.
Proof. unfold inventory, byid_node. repeat nothing_step. Qed.

Lemma nothing_send_offline : sat writes_nothing send_offline.
Proof. unfold send_offline. repeat nothing_step. Qed.

Lemma nothing_unload_all libs : sat writes_nothing (unload_all libs).
Proof.
  unfold unload_all, unload_library, while_below, unload_drive.
  apply nothing_for_each; intros lib.
  apply nothing_bind; [apply nothing_status | intros r].
  apply nothing_for_each; intros i.
  apply nothing_bind; [apply nothing_loaded | intros [slot vol]].
  destruct (negb (slot =? "0")%string);
    [apply nothing_unload | apply nothing_quiet; reflexivity].
Qed.

Lemma nothing_test_byid_nodes ready lib slot i nodes :
  sat writes_nothing (test_byid_nodes ready lib slot i nodes).
Proof.
  induction nodes as [|d nodes IH]; cbn [test_byid_nodes].
  - apply nothing_quiet; reflexivity.
  - apply nothing_bind; [apply nothing_status | intros r].
    destruct (Re.search (ready_re ready) (stdout r)); [| exact IH].
    repeat (apply nothing_bind; [apply nothing_quiet; reflexivity | intros]).
    apply nothing_unload.
Qed.

Lemma nothing_identify_all ready libs :
  sat writes_nothing (identify_all ready libs).
Proof.
  unfold identify_all, identify_library, while_below, identify_drive_index.
  apply nothing_for_each; intros lib.
  apply nothing_bind; [apply nothing_status | intros].
  destruct (mem lib (libs_to_skip cfg)); [apply nothing_quiet; reflexivity|].
  apply nothing_for_each; intros i.
  apply nothing_bind; [apply nothing_get_random_slot | intros [slot vol]].
  apply nothing_bind; [apply nothing_shell | intros].
  apply nothing_bind; [apply nothing_chk | intros].
  apply nothing_bind; [apply nothing_quiet; reflexivity | intros].
  apply nothing_bind; [apply nothing_quiet; reflexivity | intros].
  apply nothing_test_byid_nodes.
Qed.

Lemma nothing_report : sat writes_nothing report.
Proof. unfold report. repeat nothing_step. Qed.

Lemma generate_all_never_exits st c : fst (generate_all st) <> Exit c.
Proof.
  intros Hx.
  destruct (fatal_generate_all st) as (new & E & Hnew).
  destruct (untouched_generate_all st) as (_ & Ev & _).
  rewrite Hx in Hnew. cbn [erase] in Hnew.
  destruct Hnew as (_ & c0 & r & older & -> & _).
  rewrite Ev in E. apply (f_equal (@length event)) in E.
  rewrite length_app in E. cbn [length] in E. lia.
Qed.

Lemma exits_before {A} (m : M A) (k : A -> M unit) :
  sat writes_nothing m ->
  (forall a st c, fst (k a st) = Exit c -> files (snd (k a st)) = files st) ->
  forall st c,
    fst (bind m k st) = Exit c -> files (snd (bind m k st)) = files st.
Proof.
  intros Hm Hk st c. specialize (Hm st). unfold writes_nothing in Hm.
  unfold bind. destruct (m st) as [[a|c0|e] st1]; cbn [fst snd] in *.
  - intros Hx. rewrite (Hk a st1 c Hx). exact Hm.
  - intros _. exact Hm.
  - discriminate.
Qed.

(** A run that stops on a failing command has written no resource file:
    every command of the script is issued before the first file is
    written, and the writing itself never exits. *)
Theorem failed_run_writes_nothing (w : world) (c : Z) :
  fst (script (initial w)) = Exit c ->
  files (snd (script (initial w))) = [].
Proof.
  assert (H : forall st c,
             fst (script st) = Exit c -> files (snd (script st)) = files st).
  { unfold script.
    apply exits_before; [apply nothing_get_uname | intros uname].
    apply exits_before; [apply nothing_get_ready_str | intros ready].
    apply exits_before; [apply nothing_inventory | intros libs].
    apply exits_before; [apply nothing_send_offline | intros _].
    apply exits_before; [apply nothing_unload_all | intros _].
    apply exits_before; [apply nothing_identify_all | intros _].
    apply exits_before; [apply nothing_report | intros _].
    intros st c0 Hx. now destruct (@generate_all_never_exits st c0). }
  intros Hx. exact (H (initial w) c Hx).
Qed.

(** *** Further properties: drives that are empty, and the dictionary *)

Lemma rmatch_lits_then m p s pos op caps :
  rmatch (lits m ++ p) s pos op caps =
  if String.prefix m s
  then rmatch p (drop (String.length m) s) (pos + String.length m) op caps
  else None.
Proof.
  unfold lits. revert s pos. induction m as [|c m IH]; intros s pos.
  - cbn. destruct s; cbn; now rewrite Nat.add_0_r.
  - destruct s as [|d s]; cbn; [reflexivity|].
    destruct (ascii_dec c d) as [->|Hne].
    + rewrite Ascii.eqb_refl. cbn in IH. rewrite IH.
      destruct (String.prefix m s); [|reflexivity].
      f_equal. lia.
    + destruct (Ascii.eqb_spec d c); [congruence | reflexivity].
Qed.

(** A pattern that begins with a literal text is found nowhere in a
    text that does not hold the literal. *)
Lemma search_absent m p b s :
  ~ occurs m s -> search_from (unanchored (lits m ++ p)) b s = None.
Proof.
  revert b. induction s as [|c s IH]; intros b Hno; cbn [search_from].
  - unfold match_here, unanchored. cbn [anchored items andb].
    rewrite rmatch_lits_then.
    destruct (String.prefix m "") eqn:E; [|reflexivity].
    now destruct Hno; apply prefix_occurs.
  - unfold match_here, unanchored. cbn [anchored items andb].
    rewrite rmatch_lits_then.
    destruct (String.prefix m (String c s)) eqn:E.
    + now destruct Hno; apply prefix_occurs.
    + apply IH. intros (a & t & ->). apply Hno.
      now exists (String c a), t.
Qed.

(** The unloading phase leaves an empty drive alone: when the status
    report of the library leaves with exit code zero and does not hold
    the text that marks drive [i] as full, the turn of drive [i] issues
    the status query and nothing else, and changes nothing else. *)
Theorem unload_drive_leaves_empty_drive lib i st r w' :
  run_shell (hw st) (shell_text (MtxStatus lib)) = (r, w') ->
  returncode r = 0%Z ->
  ~ occurs (full_marker i) (stdout r) ->
  loaded lib i st
  = (Ok ("0", "0"),
     {| hw := w'; rand_calls := rand_calls st;
        events := Ran (MtxStatus lib) r :: events st;
        drives_byid_nodes_lst := drives_byid_nodes_lst st;
        lib_dict := lib_dict st;
        archive_device := archive_device st;
        files := files st |}) /\
  unload_drive lib i st
  = (Ok tt,
     {| hw := w'; rand_calls := rand_calls st;
        events := Ran (MtxStatus lib) r :: events st;
        drives_byid_nodes_lst := drives_byid_nodes_lst st;
        lib_dict := lib_dict st;
        archive_device := archive_device st;
        files := files st |}).
Proof.
  intros Hrun Hrc Hno.
  assert (Hl : loaded lib i st
               = (Ok ("0", "0"),
                  {| hw := w'; rand_calls := rand_calls st;
                     events := Ran (MtxStatus lib) r :: events st;
                     drives_byid_nodes_lst := drives_byid_nodes_lst st;
                     lib_dict := lib_dict st;
                     archive_device := archive_device st;
                     files := files st |})).
  { unfold loaded, lib_or_drv_status, bind, get_shell_result.
    rewrite Hrun. unfold chk_cmd_result. rewrite Hrc. cbn [Z.eqb ret fst snd].
    cbn [stdout]. unfold search, drive_full_re.
    fold (full_marker i). now rewrite search_absent. }
  split; [exact Hl|].
  unfold unload_drive, bind. now rewrite Hl.
Qed.

(** The dictionary of the discovery: after an entry has been recorded
    for a library, the library has its earlier entries followed by the
    new one, and every other library has the entries it had. *)
Theorem dict_append_get (d : dict) (lib : string) (e : entry) (k : string) :
  dict_get (dict_append d lib e) k
  = if String.eqb k lib
    then Some (match dict_get d lib with
               | Some v => v ++ [e]
               | None => [e]
               end)%list
    else dict_get d k.
Proof.
  induction d as [|[k' v] d IH]; cbn.
  - now destruct (String.eqb k lib).
  - destruct (String.eqb_spec lib k') as [->|Hne]; cbn.
    + now destruct (String.eqb_spec k k').
    + destruct (String.eqb_spec k k') as [->|Hk].
      * destruct (String.eqb_spec k' lib); [congruence | reflexivity].
      * exact IH.
Qed.

(** *** Further properties: a node the by-id listing does not mention *)

Lemma rmatch_star c p s pos op caps :
  rmatch (Star c :: p) s pos op caps =
  match s with
  | String a s' =>
      if cmem c a then
        match rmatch (Star c :: p) s' (S pos) op caps with
        | Some r => Some r
        | None => rmatch p s pos op caps
        end
      else rmatch p s pos op caps
  | EmptyString => rmatch p s pos op caps
  end.
Proof. destruct s; reflexivity. Qed.

Lemma rmatch_lazy c p s pos op caps :
  rmatch (StarLazy c :: p) s pos op caps =
  match rmatch p s pos op caps with
  | Some r => Some r
  | None =>
      match s with
      | String a s' =>
          if cmem c a then rmatch (StarLazy c :: p) s' (S pos) op caps
          else None
      | EmptyString => None
      end
  end.
Proof. destruct s; reflexivity. Qed.

(** A match of [p ++ q] holds a match of [q], somewhere further on. *)
Lemma rmatch_reaches p q :
  forall s pos op caps r,
    rmatch (p ++ q)%list s pos op caps = Some r ->
    exists a s' pos' op' caps',
      s = a ++ s' /\ rmatch q s' pos' op' caps' = Some r.
Proof.
  assert (Hcons : forall (a : ascii) (s : string) (r : found),
             (exists b s' pos' op' caps',
                 s = b ++ s' /\ rmatch q s' pos' op' caps' = Some r) ->
             exists b s' pos' op' caps',
               String a s = b ++ s' /\ rmatch q s' pos' op' caps' = Some r).
  { intros a s r (b & s' & pos' & op' & caps' & -> & H).
    now exists (String a b), s', pos', op', caps'. }
  induction p as [|it p IH]; intros s pos op caps r H.
  - now exists "", s, pos, op, caps.
  - cbn [app] in H. destruct it as [c|c|c|c| |].
    + destruct s as [|a s]; cbn [rmatch] in H; [discriminate|].
      destruct (cmem c a); [|discriminate].
      apply Hcons. eapply IH, H.
    + destruct s as [|a s]; cbn [rmatch] in H; [eapply IH, H|].
      destruct (cmem c a); [| eapply IH, H].
      destruct (rmatch (p ++ q)%list s (S pos) op caps) eqn:E.
      * inversion H; subst. apply Hcons. eapply IH, E.
      * eapply IH, H.
    + revert pos H. induction s as [|a s IHs]; intros pos H;
        rewrite rmatch_star in H; [eapply IH, H|].
      destruct (cmem c a); [| eapply IH, H].
      destruct (rmatch (Star c :: p ++ q)%list s (S pos) op caps) eqn:E.
      * inversion H; subst. apply Hcons. eapply IHs, E.
      * eapply IH, H.
    + revert pos H. induction s as [|a s IHs]; intros pos H;
        rewrite rmatch_lazy in H.
      * destruct (rmatch (p ++ q)%list "" pos op caps) eqn:E;
          [| discriminate].
        inversion H; subst. eapply IH, E.
      * destruct (rmatch (p ++ q)%list (String a s) pos op caps) eqn:E.
        -- inversion H; subst. eapply IH, E.
        -- destruct (cmem c a); [| discriminate].
           apply Hcons. eapply IHs, H.
    + cbn [rmatch] in H. eapply IH, H.
    + cbn [rmatch] in H. destruct op as [|[start s0] op']; eapply IH, H.
Qed.

(** A pattern with a literal text in it matches only where the literal
    occurs. *)
Lemma rmatch_needs_literal p1 m p2 s pos op caps r :
  rmatch (p1 ++ lits m ++ p2)%list s pos op caps = Some r -> occurs m s.
Proof.
  intros H. apply rmatch_reaches in H.
  destruct H as (a & s' & pos' & op' & caps' & -> & H).
  rewrite rmatch_lits_then in H.
  destruct (String.prefix m s') eqn:E; [| discriminate].
  exists a, (drop (String.length m) s'). f_equal. now apply prefix_drop.
Qed.

(** [re.sub] hands back the text itself when the pattern needs a literal
    that the text does not hold. *)
Lemma sub_absent p1 m p2 tmpl b s :
  ~ occurs m s ->
  sub_aux (unanchored (p1 ++ lits m ++ p2)%list) tmpl b 0 s = s.
Proof.
  revert b. induction s as [|c s IH]; intros b Hno; cbn [sub_aux].
  - destruct (match_here _ b "") as [[n g]|] eqn:E; [| reflexivity].
    unfold match_here, unanchored in E. cbn [anchored items andb] in E.
    now apply rmatch_needs_literal in E.
  - destruct (match_here _ b (String c s)) as [[n g]|] eqn:E.
    + unfold match_here, unanchored in E. cbn [anchored items andb] in E.
      now apply rmatch_needs_literal in E.
    + f_equal. apply IH. intros (a & t & ->). apply Hno.
      now exists (String c a), t.
Qed.

(** A node that the by-id listing does not mention is not resolved: for
    a node name of letters and digits that does not occur in the
    listing, the by-id node the script works with from then on is the
    whole text of the listing, for a library as for a drive. *)
Theorem unresolved_node_is_whole_listing node txt st :
  plain_node node = true ->
  ~ occurs node txt ->
  byid_node lib_byid_re lib_byid_text node txt st = (Ok txt, st) /\
  byid_node drive_byid_re drive_byid_text node txt st = (Ok txt, st).
Proof.
  intros Hp Hno. unfold byid_node. rewrite Hp. unfold ret, sub.
  split; f_equal; f_equal.
  - unfold lib_byid_re.
    change ([Star DotAll] ++ lits " "
              ++ group (lits "scsi-" ++ plus_lazy DotAll)
              ++ lits " ->" ++ [Star DotAll] ++ lits "/" ++ lits node
              ++ [Star DotAll])%list
      with (([Star DotAll] ++ lits " "
               ++ group (lits "scsi-" ++ plus_lazy DotAll)
               ++ lits " ->" ++ [Star DotAll] ++ lits "/")
              ++ lits node ++ [Star DotAll])%list.
    now apply sub_absent.
  - unfold drive_byid_re.
    change ([Star DotAll] ++ lits " "
              ++ group (lits "scsi-" ++ plus_lazy DotAll)
              ++ lits " ->" ++ [Star DotAll] ++ lits "/n" ++ lits node
              ++ lits nls ++ [Star DotAll])%list
      with (([Star DotAll] ++ lits " "
               ++ group (lits "scsi-" ++ plus_lazy DotAll)
               ++ lits " ->" ++ [Star DotAll] ++ lits "/n")
              ++ lits node ++ lits nls ++ [Star DotAll])%list.
    now apply sub_absent.
Qed.

End Script.

(** ** Counting the drives of a library *)

Section Literal.

(** A literal pattern [m]: not empty and without a newline. *)
Variable m : string.
Hypothesis m_not_empty : m <> "".
Hypothesis m_one_line :
  forallb (fun a => negb (Ascii.eqb a nl)) (list_ascii_of_string m) = true.

Let pat : pattern := unanchored (lits m).

Lemma prefix_app (a b : string) : String.prefix a (a ++ b) = true.
Proof.
  induction a as [|c a IH]; cbn; [now destruct b|].
  destruct (ascii_dec c c); [exact IH | congruence].
Qed.

Lemma prefix_split (a s : string) :
  String.prefix a s = true -> exists b, s = a ++ b.
Proof.
  revert s. induction a as [|c a IH]; intros s H.
  - now exists s.
  - destruct s as [|d s]; cbn in H; [discriminate|].
    destruct (ascii_dec c d) as [->|]; [|discriminate].
    destruct (IH s H) as [b ->]. now exists b.
Qed.

Lemma rmatch_lits s pos op caps :
  rmatch (lits m) s pos op caps =
  if String.prefix m s then Some (pos + String.length m, caps) else None.
Proof.
  clear m_not_empty m_one_line pat.
  unfold lits. revert s pos. induction m as [|c m' IH]; intros s pos.
  - cbn. destruct s; cbn; now rewrite Nat.add_0_r.
  - destruct s as [|d s]; cbn; [reflexivity|].
    destruct (ascii_dec c d) as [->|Hne].
    + rewrite Ascii.eqb_refl, IH. destruct (String.prefix m' s); [|reflexivity].
      f_equal. f_equal. lia.
    + destruct (Ascii.eqb_spec d c); [congruence | reflexivity].
Qed.

Lemma match_here_lits b s :
  match_here pat b s =
  if String.prefix m s then Some (String.length m, []) else None.
Proof. unfold match_here, pat. cbn. apply rmatch_lits. Qed.

Lemma prefix_empty : String.prefix m "" = false.
Proof. destruct m; [contradiction | reflexivity]. Qed.

Lemma findall_nil b skip : findall_aux pat b skip "" = [].
Proof.
  cbn [findall_aux]. destruct skip; [|reflexivity].
  now rewrite match_here_lits, prefix_empty.
Qed.

(** Passing over the characters of a match. *)
Lemma findall_skip b a s :
  findall_aux pat b (String.length a) (a ++ s) = findall_aux pat false 0 s.
Proof.
  revert b. induction a as [|c a IH]; intros b; cbn [String.length append].
  - destruct s as [|c s]; [now rewrite !findall_nil|].
    cbn [findall_aux]. now rewrite !match_here_lits.
  - cbn [findall_aux]. apply IH.
Qed.

Lemma findall_start b s :
  findall_aux pat b 0 s = findall_aux pat false 0 s.
Proof. apply (findall_skip b "" s). Qed.

Lemma occurs_tail c s : occurs m s -> occurs m (String c s).
Proof. intros (a & b & ->). now exists (String c a), b. Qed.

Lemma occurs_prefix s : String.prefix m s = true -> occurs m s.
Proof. intros H. destruct (prefix_split _ _ H) as [b ->]. now exists "", b. Qed.

(** The pattern is not found where it does not occur. *)
Lemma findall_absent s : ~ occurs m s -> findall_aux pat false 0 s = [].
Proof.
  induction s as [|c s IH]; intros Hno; [apply findall_nil|].
  cbn [findall_aux]. rewrite match_here_lits.
  destruct (String.prefix m (String c s)) eqn:E.
  - exfalso. now apply Hno, occurs_prefix.
  - apply IH. intros H. now apply Hno, occurs_tail.
Qed.

(** A match does not reach across the end of a line. *)
Lemma prefix_line (k a t : string) :
  forallb (fun x => negb (Ascii.eqb x nl)) (list_ascii_of_string k) = true ->
  String.prefix k (a ++ String nl t) = true -> String.prefix k a = true.
Proof.
  revert a. induction k as [|c k IH]; intros a Hk H.
  - now destruct a.
  - cbn in Hk. apply andb_true_iff in Hk. destruct Hk as [Hc Hk].
    destruct a as [|d a]; cbn in H |- *.
    + destruct (ascii_dec c nl) as [->|]; [|discriminate].
      now rewrite Ascii.eqb_refl in Hc.
    + destruct (ascii_dec c d); [now apply IH | discriminate].
Qed.

Lemma findall_line a t :
  ~ occurs m a ->
  findall_aux pat false 0 (a ++ String nl t) = findall_aux pat false 0 t.
Proof.
  induction a as [|c a IH]; intros Hno; cbn [append findall_aux];
    rewrite match_here_lits.
  - destruct (String.prefix m (String nl t)) eqn:E; [|reflexivity].
    exfalso. apply Hno, occurs_prefix.
    now apply (prefix_line m "" t).
  - destruct (String.prefix m (String c (a ++ String nl t))) eqn:E.
    + exfalso. apply Hno, occurs_prefix.
      now apply (prefix_line m (String c a) t).
    + apply IH. intros H. now apply Hno, occurs_tail.
Qed.

Lemma substring_app (a b : string) :
  String.substring 0 (String.length a) (a ++ b) = a.
Proof.
  induction a as [|c a IH]; cbn; [now destruct b | now rewrite IH].
Qed.

(** A text that begins with the pattern: one match, then the rest. *)
Lemma findall_found b rest :
  findall_aux pat b 0 (m ++ rest) = m :: findall_aux pat false 0 rest.
Proof.
  assert (Hm : exists c k, m = String c k).
  { destruct m as [|c k]; [contradiction | now exists c, k]. }
  destruct Hm as (c & k & Em).
  assert (Hs : m ++ rest = String c (k ++ rest)) by now rewrite Em.
  rewrite Hs. cbn [findall_aux]. rewrite match_here_lits.
  rewrite <- Hs, prefix_app, substring_app. f_equal.
  replace (String.length m - 1) with (String.length k)
    by (rewrite Em; cbn; lia).
  apply findall_skip.
Qed.

End Literal.

Lemma occursb_complete (m s : string) : occurs m s -> occursb m s = true.
Proof.
  intros (a & b & ->). induction a as [|c a IH].
  - cbn [append]. destruct (m ++ b) eqn:E; cbn [occursb]; rewrite <- E;
      now rewrite prefix_app.
  - cbn [append occursb]. rewrite IH. apply orb_true_r.
Qed.

Lemma not_occurs (m s : string) : occursb m s = false -> ~ occurs m s.
Proof.
  intros H Ho. apply occursb_complete in Ho. congruence.
Qed.

Lemma status_lineb_sound (l : string) : status_lineb l = true -> status_line l.
Proof.
  unfold status_lineb, status_line. intros H. apply negb_true_iff in H.
  destruct (String.prefix drive_marker l); now apply not_occurs.
Qed.

Lemma drop_app (a b : string) : drop (String.length a) (a ++ b) = b.
Proof. induction a as [|c a IH]; cbn; [now destruct b | exact IH]. Qed.

Lemma marker_not_empty : drive_marker <> "".
Proof. discriminate. Qed.

Lemma marker_one_line :
  forallb (fun a => negb (Ascii.eqb a nl)) (list_ascii_of_string drive_marker)
  = true.
Proof. reflexivity. Qed.

Ltac marker_side :=
  first [exact marker_not_empty | exact marker_one_line | assumption].

Lemma count_line (l t : string) :
  status_line l ->
  length (findall_aux drive_element_re false 0 (l ++ String nl t))
  = (if String.prefix drive_marker l then 1 else 0)
    + length (findall_aux drive_element_re false 0 t).
Proof.
  unfold status_line. intros Hl.
  destruct (String.prefix drive_marker l) eqn:E.
  - destruct (prefix_split _ _ E) as [rest ->]. rewrite drop_app in Hl.
    rewrite append_assoc.
    unfold drive_element_re. fold drive_marker.
    rewrite findall_found by marker_side.
    rewrite findall_line by marker_side.
    reflexivity.
  - unfold drive_element_re. fold drive_marker.
    rewrite findall_line by marker_side.
    reflexivity.
Qed.

Lemma count_last_line (l : string) :
  status_line l ->
  length (findall_aux drive_element_re false 0 l)
  = if String.prefix drive_marker l then 1 else 0.
Proof.
  unfold status_line. intros Hl.
  destruct (String.prefix drive_marker l) eqn:E.
  - destruct (prefix_split _ _ E) as [rest ->]. rewrite drop_app in Hl.
    unfold drive_element_re. fold drive_marker.
    rewrite findall_found by marker_side.
    rewrite findall_absent by marker_side.
    reflexivity.
  - unfold drive_element_re. fold drive_marker.
    rewrite findall_absent by marker_side.
    reflexivity.
Qed.

(** C7.  For a status report whose lines are status lines (a drive
    element record begins with [Data Transfer Element] and holds these
    words once, no other line holds them) and which reports no drive
    twice, the number of drives that the script computes is the number
    of distinct drive element records of the report; being the length
    of a list it is not negative. *)
Theorem count_drives_records (lines : list string) :
  Forall status_line lines ->
  NoDup (drive_records lines) ->
  count_drives (join nls lines)
  = length (nodup string_dec (drive_records lines))
  /\ 0 <= count_drives (join nls lines).
Proof.
  intros Hall Hdistinct. split; [| lia].
  rewrite (nodup_fixed_point string_dec Hdistinct).
  unfold count_drives, Re.findall, join.
  unfold drive_element_re. fold drive_marker.
  rewrite findall_start by marker_side.
  change (unanchored (lits drive_marker)) with drive_element_re.
  clear Hdistinct.
  induction Hall as [|l ls Hl Hls IH]; [reflexivity|].
  cbn [String.concat drive_records filter].
  destruct ls as [|l2 ls].
  - rewrite count_last_line by exact Hl.
    now destruct (String.prefix drive_marker l).
  - change (l ++ nls ++ String.concat nls (l2 :: ls))
      with (l ++ String nl (String.concat nls (l2 :: ls))).
    rewrite count_line by exact Hl. rewrite IH.
    now destruct (String.prefix drive_marker l).
Qed.

(** ** The properties on sample runs *)

Lemma identify_first_ready_witness :
  let st := {| hw := [ answer 0 slots_two_three; answer 0 "";
                       answer 0 mt_empty; answer 0 mt_online; answer 0 "" ];
               rand_calls := 0; events := [];
               drives_byid_nodes_lst := ["scsi-DRVA-nst"; "scsi-DRVB-nst"; "scsi-DRVC-nst"];
               lib_dict := []; archive_device := None; files := [] |} in
  fst (identify_drive_index playback no_random default_settings "ONLINE"
                            "scsi-LIB1" 0 st) = Ok tt
  /\ lib_dict (snd (identify_drive_index playback no_random default_settings
                      "ONLINE" "scsi-LIB1" 0 st))
     = [("scsi-LIB1", [("scsi-DRVB-nst", 0)])]
  /\ drives_byid_nodes_lst
       (snd (identify_drive_index playback no_random default_settings
               "ONLINE" "scsi-LIB1" 0 st))
     = ["scsi-DRVA-nst"; "scsi-DRVC-nst"].
Proof.
  intros st.
  destruct (@identify_first_ready _ playback no_random default_settings
              "ONLINE" "scsi-LIB1" 0 st "2" "E01002L4"
              (snd (get_random_slot playback no_random "scsi-LIB1" st))
              ["scsi-DRVA-nst"] "scsi-DRVB-nst" ["scsi-DRVC-nst"]
              (answer 0 "") [answer 0 mt_empty] (answer 0 mt_online)
              [answer 0 ""]
              eq_refl eq_refl eq_refl eq_refl) as [H _].
  - repeat constructor.
  - right. discriminate.
  - rewrite H. repeat split.
Defined.

(** C1, as stated, fails: the exit code of a status query is looked at
    before its text.  The second drive reports the ready marker, but its
    status query leaves with exit code 1: the run ends with that code,
    and the drive is neither recorded nor removed nor unloaded. *)
Lemma ready_text_with_exit_one :
  let st := {| hw := [ answer 0 slots_two_three; answer 0 "";
                       answer 0 mt_empty; answer 1 mt_online; answer 0 "" ];
               rand_calls := 0; events := [];
               drives_byid_nodes_lst := ["scsi-DRVA-nst"; "scsi-DRVB-nst"];
               lib_dict := []; archive_device := None; files := [] |} in
  let res := identify_drive_index playback no_random default_settings "ONLINE"
                                  "scsi-LIB1" 0 st in
  Re.search (ready_re "ONLINE") mt_online <> None
  /\ fst res = Exit 1%Z
  /\ lib_dict (snd res) = []
  /\ drives_byid_nodes_lst (snd res) = ["scsi-DRVA-nst"; "scsi-DRVB-nst"]
  /\ events (snd res)
     = [ Ran (MtStatus "scsi-DRVB-nst") (answer 1 mt_online);
         Ran (MtStatus "scsi-DRVA-nst") (answer 0 mt_empty);
         Slept 10;
         Ran (MtxLoad "scsi-LIB1" "2" 0) (answer 0 "");
         Ran (MtxFullSlots "scsi-LIB1") (answer 0 slots_two_three) ].
Proof.
  vm_compute. repeat split. discriminate.
Qed.

Lemma get_random_slot_no_full_slot_witness :
  Re.findall full_slots_re slots_beyond_99 = []
  /\ fst (get_random_slot playback no_random "scsi-LIB1"
            (initial [answer 0 slots_beyond_99])) = Raise ValueError.
Proof.
  split; [reflexivity|].
  apply (get_random_slot_no_full_slot playback no_random "scsi-LIB1"
           (initial [answer 0 slots_beyond_99])).
  reflexivity.
Defined.

(** C9, as stated, fails: the pipeline ends in [grep], which leaves with
    exit code 1 when it selects no line, and the run exits with that
    code before [randint] is reached. *)
Lemma get_random_slot_exits_before_randint :
  Re.findall full_slots_re (stdout (answer 1 "")) = []
  /\ get_random_slot playback no_random "scsi-LIB1" (initial [answer 1 ""])
     = (Exit 1%Z,
        {| hw := []; rand_calls := 0;
           events := [Ran (MtxFullSlots "scsi-LIB1") (answer 1 "")];
           drives_byid_nodes_lst := []; lib_dict := [];
           archive_device := None; files := [] |})
  /\ fst (get_random_slot playback no_random "scsi-LIB1"
            (initial [answer 1 ""])) <> Raise ValueError.
Proof. repeat split. discriminate. Qed.

(** C6: a loaded drive whose record carries no volume tag.  The pattern
    for slot and volume finds nothing to replace, and the script takes
    the first two words of the record for the slot and the volume; the
    unloading of the drives then asks the changer to unload to slot
    [Data]. *)
Lemma loaded_without_volume_tag :
  let st := initial [answer 0 status_no_volume_tag; answer 1 ""] in
  Re.search (drive_full_re 0) status_no_volume_tag
  = Some "Data Transfer Element 0:Full (Storage Element 3 Loaded)"
  /\ fst (loaded playback "scsi-LIB1" 0 st) = Ok ("Data", "Transfer")
  /\ fst (unload_drive playback "scsi-LIB1" 0 st) = Exit 1%Z
  /\ events (snd (unload_drive playback "scsi-LIB1" 0 st))
     = [ Ran (MtxUnload "scsi-LIB1" "Data" 0) (answer 1 "");
         Ran (MtxStatus "scsi-LIB1") (answer 0 status_no_volume_tag) ].
Proof.
  intros st. split; [reflexivity|]. split; [reflexivity|].
  split; reflexivity.
Qed.

(** C5: nothing becomes ready at index 0 and the second drive is found
    at index 1; the discovery goes on as it should, and the resource
    generator then dies of the [archive_device] that was never
    assigned. *)
Lemma index_zero_missing_dies :
  let res := script playback no_random true "20240213120000" no_python_re
                    default_settings (initial world_index_zero_missing) in
  fst res = Raise (NameError "archive_device")
  /\ lib_dict (snd res) = [("scsi-LIB1", [("scsi-DRVB-nst", 1)])]
  /\ hw (snd res) = [].
Proof. vm_compute. repeat split. Qed.

(** C2 does not hold of the code.  The pattern that maps the node of a
    library to its by-id name does not end after the node, unlike the
    pattern for the drives, so that [sg1] is also found in the line of
    [sg10]: both nodes get the name of the second library, which is then
    dealt with twice, and each time a drive that reports ready is
    entered with index 0. *)
Lemma same_index_twice :
  let res := script playback no_random true "20240213120000" no_python_re
                    default_settings (initial world_sg1_sg10) in
  fst (inventory playback no_python_re
                 (initial (skipn 2 world_sg1_sg10)))
  = Ok ["scsi-LIB2"; "scsi-LIB2"]
  /\ fst res = Ok tt
  /\ lib_dict (snd res)
     = [("scsi-LIB2", [("scsi-DRVA-nst", 0); ("scsi-DRVB-nst", 0)])]
  /\ ~ NoDup (map snd [("scsi-DRVA-nst", 0); ("scsi-DRVB-nst", 0)]).
Proof.
  vm_compute. repeat split.
  intros H. inversion H as [|? ? Hin _]. apply Hin. now left.
Qed.

Lemma identify_all_unique_witness :
  let st := {| hw := [ answer 0 status_two_empty;
                       answer 0 slots_two_three; answer 0 "";
                       answer 0 mt_empty; answer 0 mt_online; answer 0 "";
                       answer 0 slots_three; answer 0 "";
                       answer 0 mt_online; answer 0 "" ];
               rand_calls := 0; events := [];
               drives_byid_nodes_lst := ["scsi-DRVA-nst"; "scsi-DRVB-nst"];
               lib_dict := []; archive_device := None; files := [] |} in
  let st' := snd (identify_all playback no_random default_settings "ONLINE"
                               ["scsi-LIB1"] st) in
  lib_dict st' = [("scsi-LIB1", [("scsi-DRVB-nst", 0); ("scsi-DRVA-nst", 1)])]
  /\ (forall lib es, In (lib, es) (lib_dict st') -> NoDup (map snd es))
  /\ NoDup (ids (lib_dict st')).
Proof.
  intros st st'. split; [reflexivity|].
  destruct (@identify_all_unique _ playback no_random default_settings
              "ONLINE" ["scsi-LIB1"] st) as (H1 & H2).
  split.
  - apply H1; [repeat constructor; intros [] | reflexivity].
  - apply H2. repeat constructor; cbn; intuition discriminate.
Defined.

(** C3, as stated, fails: the loop that unloads the drives before the
    discovery runs over every library found, and unloads the drive of a
    library on the skip list like any other. *)
Lemma skipped_library_unloaded :
  let L := "scsi-SSTK_L700_XYZZY_A" in
  let res := script playback no_random true "20240213120000" no_python_re
                    default_settings (initial world_skipped_loaded) in
  mem L (libs_to_skip default_settings) = true
  /\ fst res = Ok tt
  /\ In (Ran (MtxUnload L "3" 0) (answer 0 "")) (events (snd res)).
Proof. vm_compute. repeat split. right. now left. Qed.

Lemma skipped_library_spared_witness :
  let L := "scsi-SSTK_L700_XYZZY_A" in
  mem L (libs_to_skip default_settings) = true
  /\ (forall slot i r,
         ~ In (Ran (MtxLoad L slot i) r)
              (events (snd (script playback no_random true "20240213120000"
                                   no_python_re default_settings
                                   (initial world_skipped_loaded)))))
  /\ dict_get (lib_dict (snd (script playback no_random true "20240213120000"
                                     no_python_re default_settings
                                     (initial world_skipped_loaded)))) L = None.
Proof.
  intros L. split; [reflexivity|].
  apply (@skipped_library_spared _ playback no_random true "20240213120000"
           no_python_re default_settings L eq_refl).
Defined.

Lemma nonzero_exit_is_fatal_witness :
  let res := script playback no_random true "20240213120000" no_python_re
                    default_settings (initial world_ls_fails) in
  rev (events (snd res))
  = [ Ran Uname (answer 0 (text ["Linux"]));
      Ran MtVersionMtSt (answer 0 (text ["mt-st v. 1.1"]));
      Ran LsscsiLibs (answer 0 (text ["sg3"]));
      Ran LsscsiAll (answer 0 "");
      Ran LsById (answer 2 "") ]
  /\ fst res = Exit 2%Z.
Proof.
  intros res. split; [reflexivity|].
  apply (@nonzero_exit_is_fatal _ playback no_random true "20240213120000"
           no_python_re default_settings world_ls_fails
           [ Ran Uname (answer 0 (text ["Linux"]));
             Ran MtVersionMtSt (answer 0 (text ["mt-st v. 1.1"]));
             Ran LsscsiLibs (answer 0 (text ["sg3"]));
             Ran LsscsiAll (answer 0 "") ]
           LsById (answer 2 "") []).
  - reflexivity.
  - cbn. lia.
  - discriminate.
  - discriminate.
Defined.

Lemma count_drives_records_witness :
  Forall status_line status_lines_empty
  /\ drive_records status_lines_empty
     = ["Data Transfer Element 0:Empty"; "Data Transfer Element 1:Empty"]
  /\ count_drives (join nls status_lines_empty) = 2.
Proof.
  assert (H : Forall status_line status_lines_empty).
  { repeat (apply Forall_cons; [apply status_lineb_sound; reflexivity|]).
    apply Forall_nil. }
  split; [exact H|]. split; [reflexivity|].
  apply (count_drives_records H).
  repeat constructor; cbn; intuition discriminate.
Defined.

(** C8, as stated, fails: the texts are not a function of the library
    and its entries alone.  The same library with the same entries,
    rendered in two runs that start a second apart, gives different
    texts, since every Description line carries the date stamp. *)
Lemma render_depends_on_date_stamp :
  map snd (files (snd (generate_library "20240213120000" "scsi-LIB1"
                                        [("scsi-DRVA-nst", 0)] (initial tt))))
  <> map snd (files (snd (generate_library "20240213120001" "scsi-LIB1"
                                           [("scsi-DRVA-nst", 0)]
                                           (initial tt)))).
Proof.
  intros H; vm_compute in H; discriminate H.
Qed.

Lemma generate_all_deterministic_witness :
  let d := [("scsi-LIB1", [("scsi-DRVB-nst", 0); ("scsi-DRVA-nst", 1)])] in
  let st1 := {| hw := [answer 0 ""]; rand_calls := 2;
                events := [Slept 10];
                drives_byid_nodes_lst := []; lib_dict := d;
                archive_device := None; files := [] |} in
  let st2 := {| hw := ([] : list cmd_result); rand_calls := 0; events := [];
                drives_byid_nodes_lst := ["scsi-DRVC-nst"]; lib_dict := d;
                archive_device := Some "scsi-DRVC-nst"; files := [] |} in
  fst (generate_all "20240213120000" st1) = Ok tt
  /\ files (snd (generate_all "20240213120000" st1))
     = files (snd (generate_all "20240213120000" st2))
  /\ events (snd (generate_all "20240213120000" st1)) = [Slept 10].
Proof.
  intros d st1 st2.
  destruct (@generate_all_deterministic _ "20240213120000" st1 st2
              eq_refl eq_refl)
    as ((H1 & H2 & (_ & H3 & _)) & (_ & H4 & _)).
  split; [exact H1|]. split; [| exact H3].
  rewrite H2, H4. reflexivity.
Defined.

(** The scenario of a library with two drives: the first turn finds the
    second drive at index 0, the second turn the first drive at index 1,
    and the device files pair them accordingly. *)
Example two_drive_library :
  let res := script playback no_random true "20240213120000" no_python_re
                    default_settings
                    (initial
                       (startup ["sg3"] (ls_one_library "scsi-LIB1")
                        ++ [ answer 0 status_two_empty; answer 0 status_two_empty;
                             answer 0 status_two_empty;
                             answer 0 status_two_empty;
                             answer 0 slots_two_three; answer 0 "";
                             answer 0 mt_empty; answer 0 mt_online; answer 0 "";
                             answer 0 slots_two_three; answer 0 "";
                             answer 0 mt_online; answer 0 "" ])%list) in
  fst res = Ok tt
  /\ lib_dict (snd res)
     = [("scsi-LIB1", [("scsi-DRVB-nst", 0); ("scsi-DRVA-nst", 1)])]
  /\ drives_byid_nodes_lst (snd res) = []
  /\ map fst (rev (files (snd res)))
     = [ "/tmp/bacula-resource-auto-creator_20240213120000/DirectorStorage_Autochanger_LIB1.cfg";
         "/tmp/bacula-resource-auto-creator_20240213120000/StorageDevice_Autochanger_LIB1_Dev0.cfg";
         "/tmp/bacula-resource-auto-creator_20240213120000/StorageDevice_Autochanger_LIB1_Dev1.cfg";
         "/tmp/bacula-resource-auto-creator_20240213120000/StorageAutochanger_Autochanger_LIB1.cfg" ]
  /\ nth 1 (map snd (rev (files (snd res)))) ""
     = device_txt "20240213120000" "scsi-LIB1" 0 "scsi-DRVB-nst"
  /\ nth 2 (map snd (rev (files (snd res)))) ""
     = device_txt "20240213120000" "scsi-LIB1" 1 "scsi-DRVA-nst".
Proof. vm_compute. repeat split. Qed.

(** The text of a device file, here for a position that has no entry and
    inherits the archive device of the position before. *)
Example device_txt_example :
  device_txt "20240213120000" "scsi-LIB1" 1 "scsi-DRVA-nst"
  = join nls
      [ "Device {";
        "  Name = " ++ dq ++ "Autochanger_LIB1_Dev1" ++ dq;
        "  Description = " ++ dq
          ++ "Drive 1 in Autochanger_LIB1 - Created by Bacula Resource Auto Creator v0.09 - 20240213120000"
          ++ dq;
        "  DriveIndex = 1";
        "  DeviceType = Tape";
        "  MediaType = " ++ dq ++ "LIB1" ++ dq;
        "  Autochanger = yes";
        "  AlwaysOpen = yes";
        "  AutomaticMount = yes";
        "  LabelMedia = no";
        "  RandomAccess = no";
        "  RemovableMedia = yes";
        "  MaximumConcurrentJobs = 1";
        "  ArchiveDevice = " ++ dq ++ "/dev/tape/by-id/scsi-DRVA-nst" ++ dq;
        "}" ].
Proof. reflexivity. Qed.

(** ** The further properties at work *)

Lemma inventory_never_empty_witness :
  fst (inventory playback no_python_re (initial world_nothing_listed))
  = Ok [""]
  /\ drives_byid_nodes_lst
       (snd (inventory playback no_python_re (initial world_nothing_listed)))
     <> [].
Proof.
  split; [reflexivity|].
  apply (@inventory_never_empty _ playback no_python_re
           (initial world_nothing_listed) [""]
           (snd (inventory playback no_python_re
                           (initial world_nothing_listed)))).
  reflexivity.
Defined.

Lemma get_random_slot_in_range_witness :
  length (Re.findall full_slots_re slots_two_three) = 2
  /\ rand_calls (snd (get_random_slot playback no_random "scsi-LIB1"
                        (initial [answer 0 slots_two_three]))) = 1.
Proof.
  split; [reflexivity|].
  pose proof (@get_random_slot_in_range _ playback no_random "scsi-LIB1"
                (initial [answer 0 slots_two_three])) as H.
  cbv zeta in H.
  destruct H as (line & _ & _ & H & _);
    [reflexivity | vm_compute; discriminate | exact H].
Defined.

Lemma identify_none_ready_witness :
  let st := {| hw := world_none_ready; rand_calls := 0; events := [];
               drives_byid_nodes_lst := ["scsi-DRVA-nst"; "scsi-DRVB-nst"];
               lib_dict := []; archive_device := None; files := [] |} in
  fst (identify_drive_index playback no_random default_settings "ONLINE"
                            "scsi-LIB1" 0 st) = Ok tt
  /\ lib_dict (snd (identify_drive_index playback no_random default_settings
                      "ONLINE" "scsi-LIB1" 0 st)) = []
  /\ drives_byid_nodes_lst
       (snd (identify_drive_index playback no_random default_settings
               "ONLINE" "scsi-LIB1" 0 st))
     = ["scsi-DRVA-nst"; "scsi-DRVB-nst"].
Proof.
  intros st.
  pose proof (@identify_none_ready _ playback no_random default_settings
                "ONLINE" "scsi-LIB1" 0 st "2" "E01002L4"
                (snd (get_random_slot playback no_random "scsi-LIB1" st))
                (answer 0 "") [answer 0 mt_empty; answer 0 mt_empty] []
                eq_refl eq_refl eq_refl) as H.
  rewrite H.
  - repeat split.
  - repeat constructor.
Defined.

Lemma generate_library_complete_witness :
  let entries := [("scsi-DRVA-nst", 1); ("scsi-DRVB-nst", 0)] in
  let st := initial ([] : list cmd_result) in
  fst (generate_library "20240213120000" "scsi-LIB1" entries st) = Ok tt
  /\ length (files (snd (generate_library "20240213120000" "scsi-LIB1"
                                          entries st))) = 4.
Proof.
  intros entries st.
  pose proof (@generate_library_complete _ "20240213120000" "scsi-LIB1"
                entries st (perm_swap 0 1 [])) as H.
  cbv zeta in H. destruct H as [H _]. rewrite H. split; reflexivity.
Defined.

Lemma status_only_after_settle_delay_witness :
  let ev := rev (events (snd (script playback no_random true "20240213120000"
                                     no_python_re default_settings
                                     (initial world_index_zero_missing)))) in
  nth_error ev 12 = Some (Slept 10)
  /\ nth_error ev 13
     = Some (Ran (MtStatus "scsi-DRVA-nst") (answer 0 mt_empty))
  /\ may_follow 10 (Slept 10)
                (Ran (MtStatus "scsi-DRVA-nst") (answer 0 mt_empty)).
Proof.
  intros ev. split; [reflexivity|]. split; [reflexivity|].
  apply (@status_only_after_settle_delay _ playback no_random true
           "20240213120000" no_python_re default_settings
           world_index_zero_missing
           (firstn 12 ev)
           (Ran (MtStatus "scsi-DRVA-nst") (answer 0 mt_empty))
           (Slept 10) (skipn 14 ev)).
  reflexivity.
Defined.

Lemma failed_run_writes_nothing_witness :
  let res := script playback no_random true "20240213120000" no_python_re
                    default_settings (initial world_ls_fails) in
  fst res = Exit 2%Z /\ files (snd res) = [].
Proof.
  intros res. split; [reflexivity|].
  apply (@failed_run_writes_nothing _ playback no_random true
           "20240213120000" no_python_re default_settings world_ls_fails
           2%Z).
  reflexivity.
Defined.

Lemma unload_drive_leaves_empty_drive_witness :
  let st := initial [answer 0 status_two_empty] in
  fst (unload_drive playback "scsi-LIB1" 1 st) = Ok tt
  /\ events (snd (unload_drive playback "scsi-LIB1" 1 st))
     = [Ran (MtxStatus "scsi-LIB1") (answer 0 status_two_empty)].
Proof.
  intros st.
  destruct (@unload_drive_leaves_empty_drive _ playback "scsi-LIB1" 1 st
              (answer 0 status_two_empty) [] eq_refl eq_refl) as [_ H].
  - apply not_occurs. reflexivity.
  - rewrite H. split; reflexivity.
Defined.

Lemma unresolved_node_is_whole_listing_witness :
  let txt := ls_one_library "scsi-LIB1" in
  fst (byid_node no_python_re lib_byid_re lib_byid_text "sg7" txt
                 (initial ([] : list cmd_result))) = Ok txt.
Proof.
  intros txt.
  destruct (@unresolved_node_is_whole_listing _ no_python_re "sg7" txt
              (initial ([] : list cmd_result)) eq_refl) as [H _].
  - apply not_occurs. reflexivity.
  - rewrite H. reflexivity.
Defined.
